(** * fmcardgen: the field-rendering engine ([fmcardgen/draw.py])

    A shallow embedding of [draw.py] and of the parts of its environment
    that decide its behaviour:

    - Python strings are lists of characters with code points below 256;
      [str.isspace], [str.strip], [str.join] and [str.expandtabs] are
      written out on them.
    - [textwrap.TextWrapper()._split_chunks] (CPython's [textwrap.py],
      default options) is written out: [_munge_whitespace] followed by a
      split along [wordsep_re].
    - Integers are [Z]; the alpha fraction of a colour is a binary64
      float ([PrimFloat]).
    - The image surface is the one mutable object of a rendering pass: it
      is the state of a small state-and-exception monad whose state
      survives a raised exception, as the mutated image does in Python. *)

From Stdlib Require Import Ascii String List ZArith NArith Bool Lia.
From Stdlib Require Import Floats QArith Qabs.
Import ListNotations.

Local Open Scope Z_scope.

(** ** Python strings *)

Module PyStr.

(** A [str] restricted to code points 0..255. *)
Definition str := list ascii.

Definition lit (s : string) : str := list_ascii_of_string s.

Definition code (c : ascii) : N := N_of_ascii c.

Definition between (lo hi : N) (c : ascii) : bool :=
  ((lo <=? code c) && (code c <=? hi))%N.

Definition chr (n : N) : ascii := ascii_of_N n.

Definition SPACE : ascii := chr 32.
Definition TAB : ascii := chr 9.
Definition LF : ascii := chr 10.
Definition CR : ascii := chr 13.
Definition HYPHEN : ascii := chr 45.

Definition is_char (d c : ascii) : bool := Ascii.eqb c d.

(** [c.isspace()] for one character: TAB..CR, FS..US and space, NEL and
    the no-break space. *)
Definition isspace_char (c : ascii) : bool :=
  between 9 13 c || between 28 32 c || between 133 133 c
  || between 160 160 c.

(** [s.isspace()]: at least one character, and all of them whitespace. *)
Definition isspace (s : str) : bool :=
  match s with
  | [] => false
  | _ => forallb isspace_char s
  end.

Fixpoint lstrip (s : str) : str :=
  match s with
  | c :: s' => if isspace_char c then lstrip s' else s
  | [] => []
  end.

Definition rstrip (s : str) : str := rev (lstrip (rev s)).

(** [s.strip()] *)
Definition strip (s : str) : str := rstrip (lstrip s).

(** [sep.join(parts)] *)
Fixpoint join (sep : str) (parts : list str) : str :=
  match parts with
  | [] => []
  | [p] => p
  | p :: ps => p ++ sep ++ join sep ps
  end.



Definition str_eqb (a b : str) : bool :=
  if list_eq_dec ascii_dec a b then true else false.

(** [s.expandtabs(tabsize)], with the column reset after LF and CR. *)
Fixpoint expandtabs_aux (tabsize : nat) (col : nat) (s : str) : str :=
  match s with
  | [] => []
  | c :: s' =>
      if is_char TAB c
      then match tabsize with
           | O => expandtabs_aux tabsize col s'
           | _ =>
               let incr := (tabsize - Nat.modulo col tabsize)%nat in
               repeat SPACE incr ++ expandtabs_aux tabsize (col + incr) s'
           end
      else c :: expandtabs_aux tabsize
                  (if is_char LF c || is_char CR c then O else S col) s'
  end.

Definition expandtabs (tabsize : nat) (s : str) : str :=
  expandtabs_aux tabsize 0 s.

End PyStr.

Import PyStr.

(** ** [textwrap.TextWrapper] (default options): the tokenizer *)

Module TextWrap.

(** [_whitespace]: TAB, LF, VT, FF, CR and space. *)
Definition ws (c : ascii) : bool := between 9 13 c || between 32 32 c.

(** [\w] of [re] on code points below 256. *)
Definition word_char (c : ascii) : bool :=
  between 48 57 c || between 65 90 c || between 95 95 c
  || between 97 122 c || between 170 170 c || between 178 179 c
  || between 181 181 c || between 185 186 c || between 188 190 c
  || between 192 214 c || between 216 246 c || between 248 255 c.

(** [\d] *)
Definition digit (c : ascii) : bool := between 48 57 c.

(** [letter = r'[^\d\W]'] *)
Definition letter (c : ascii) : bool := word_char c && negb (digit c).

(** [word_punct]: a [\w] character or one of the seven punctuation
    marks ! (33), double quote (34), & (38), apostrophe (39), comma
    (44), full stop (46) and ? (63). *)
Definition word_punct (c : ascii) : bool :=
  word_char c || between 33 34 c || between 38 39 c || between 44 44 c
  || between 46 46 c || between 63 63 c.

(** [unicode_whitespace_trans]: every character of [_whitespace]
    becomes a space. *)
Definition translate (s : str) : str :=
  map (fun c => if ws c then SPACE else c) s.

(** [_munge_whitespace] with [expand_tabs], [replace_whitespace] and
    [tabsize = 8]. *)
Definition _munge_whitespace (text : str) : str :=
  translate (expandtabs 8 text).

(** Length of the run of hyphens at the head of [s]. *)
Fixpoint dashes (s : str) : nat :=
  match s with
  | c :: s' => if is_char HYPHEN c then S (dashes s') else O
  | [] => O
  end.

(** [(?=-{2,}\w)] at the head of [s]. *)
Definition emdash_ahead (s : str) : bool :=
  let h := dashes s in
  (2 <=? h)%nat &&
  match skipn h s with
  | c :: _ => word_char c
  | [] => false
  end.

(** [(?<=wp)]: [back] is the text before the position, nearest
    character first. *)
Definition after_word_punct (back : str) : bool :=
  match back with
  | c :: _ => word_punct c
  | [] => false
  end.

(** The hyphen at the head of [s] ends a part of a hyphenated word:
    [-(?: (?<=lt{2}-) | (?<=lt-lt-)) (?= lt -? lt)]. *)
Definition hyphen_break (back s : str) : bool :=
  match s with
  | h :: ahead =>
      is_char HYPHEN h
      && (match back with
          | l1 :: l2 :: more =>
              (letter l1 && letter l2)
              || (letter l1 && is_char HYPHEN l2
                  && match more with l3 :: _ => letter l3 | [] => false end)
          | _ => false
          end)
      && (match ahead with
          | x :: y :: more =>
              letter x
              && ((is_char HYPHEN y
                   && match more with z :: _ => letter z | [] => false end)
                  || letter y)
          | _ => false
          end)
  | [] => false
  end.

(** The lazy [nws+?] of the third alternative: how many more
    characters the chunk takes once it holds the characters at the head
    of [back]. *)
Fixpoint word_len (back s : str) : nat :=
  match s with
  | [] => O
  | c :: s' =>
      if hyphen_break back s then 1%nat
      else if ws c then O
      else if after_word_punct back && emdash_ahead s then O
      else S (word_len (c :: back) s')
  end.

Fixpoint ws_len (s : str) : nat :=
  match s with
  | c :: s' => if ws c then S (ws_len s') else O
  | [] => O
  end.

(** Length of the match of [wordsep_re] that starts at the head of [s]:
    a run of whitespace, an em-dash between words, or a (part of a)
    word. *)
Definition match_len (back s : str) : nat :=
  match s with
  | [] => O
  | c :: s' =>
      if ws c then ws_len s
      else if after_word_punct back && emdash_ahead s then dashes s
      else S (word_len (c :: back) s')
  end.

(** [wordsep_re.split(text)] without the empty strings. The matches
    are adjacent, so the chunks are the matches themselves. *)
Fixpoint split_from (fuel : nat) (back s : str) : list str :=
  match fuel, s with
  | _, [] => []
  | O, _ => []
  | S fuel', _ =>
      let n := match_len back s in
      let chunk := firstn n s in
      chunk :: split_from fuel' (rev chunk ++ back) (skipn n s)
  end.

Definition _split (text : str) : list str :=
  split_from (length text) [] text.

Definition _split_chunks (text : str) : list str :=
  _split (_munge_whitespace text).

End TextWrap.

(** ** Exceptions, and the state-and-exception monad of a rendering pass *)

Inductive exception : Type :=
| ValueError (msg : string)
| OverflowError (msg : string)
| OSError (msg : string)
| OtherError (name msg : string).

Inductive outcome (A : Type) : Type :=
| Ok (a : A)
| Raise (e : exception).

Arguments Ok {A} a.
Arguments Raise {A} e.

(** ** Pillow: images, fonts and the drawing primitives [draw.py] calls *)

Module PIL.

Inductive Mode : Type :=
| mode_1 | mode_L | mode_LA | mode_P | mode_RGB | mode_RGBA | mode_CMYK.

Definition Mode_eqb (a b : Mode) : bool :=
  match a, b with
  | mode_1, mode_1 | mode_L, mode_L | mode_LA, mode_LA | mode_P, mode_P
  | mode_RGB, mode_RGB | mode_RGBA, mode_RGBA | mode_CMYK, mode_CMYK => true
  | _, _ => false
  end.

(** The modes with an alpha band. *)
Definition has_alpha (m : Mode) : bool :=
  match m with
  | mode_LA | mode_RGBA => true
  | _ => false
  end.

(** The bands of one pixel; an RGBA pixel is (r, g, b, a). *)
Definition Pixel : Type := Z * Z * Z * Z.

Definition Box : Type := Z * Z * Z * Z.

Record Image : Type := mkImage {
  mode : Mode;
  size : Z * Z;
  px : Z -> Z -> Pixel
}.

Definition width (im : Image) : Z := fst (size im).
Definition height (im : Image) : Z := snd (size im).

(** [PILColorTuple] of [draw.py]: a 3-tuple or a 4-tuple of integers. *)
Inductive PILColorTuple : Type :=
| Tuple3 (r g b : Z)
| Tuple4 (r g b a : Z).

(** The ink of a colour on an RGBA image: a 3-tuple is opaque. *)
Definition ink (c : PILColorTuple) : Pixel :=
  match c with
  | Tuple3 r g b => (r, g, b, 255)
  | Tuple4 r g b a => (r, g, b, a)
  end.

(** A font handle: [font.getsize(text)] gives (width, height), and
    [draw.textbbox(xy, text, font)] the bounding box of the text
    anchored at xy, or raises for a font without outline metrics. *)
Record Font : Type := mkFont {
  getsize : str -> Z * Z;
  textbbox : Z * Z -> str -> outcome Box
}.

(** [Image.new(mode, size, color)] *)
Definition new (m : Mode) (sz : Z * Z) (color : Pixel) : Image :=
  mkImage m sz (fun _ _ => color).

(** The drawing context [ImageDraw.Draw(im, mode)]: it blends when an
    RGBA context is asked on an RGB image, and any other difference of
    modes is refused. *)
Record Draw : Type := mkDraw { blend : bool }.

Definition ImageDraw_Draw (im : Image) (m : option Mode) : outcome Draw :=
  match m with
  | None => Ok (mkDraw false)
  | Some m' =>
      if Mode_eqb m' (mode im) then Ok (mkDraw false)
      else if Mode_eqb m' mode_RGBA && Mode_eqb (mode im) mode_RGB
           then Ok (mkDraw true)
           else Raise (ValueError "mode mismatch")
  end.

Definition in_box (b : Box) (i j : Z) : bool :=
  let '(x0, y0, x1, y1) := b in
  (x0 <=? i) && (i <=? x1) && (y0 <=? j) && (j <=? y1).

(** [ImageDraw.Draw(im).rectangle(xy, fill)] on a context that does
    not blend: the pixels of the box, both corners included, take the
    ink. *)
Definition rectangle (im : Image) (xy : Box) (fill : PILColorTuple) : Image :=
  mkImage (mode im) (size im)
    (fun i j => if in_box xy i j then ink fill else px im i j).

Definition size_eqb (a b : Z * Z) : bool :=
  (fst a =? fst b) && (snd a =? snd b).

(** [dst.alpha_composite(src)] with the default offsets: both images
    must be RGBA and of one size; every pixel of [dst] becomes the
    pixel of [src] composited over it by [over]. *)
Definition alpha_composite (over : Pixel -> Pixel -> Pixel)
    (dst src : Image) : outcome Image :=
  if negb (Mode_eqb (mode dst) mode_RGBA)
  then Raise (ValueError "image has wrong mode")
  else if negb (Mode_eqb (mode src) mode_RGBA && size_eqb (size src) (size dst))
       then Raise (ValueError "images do not match")
       else Ok (mkImage (mode dst) (size dst)
                  (fun i j => over (px src i j) (px dst i j))).

End PIL.

Import PIL.

(** The rest of the environment of [draw.py]: the compositing operator
    and the glyph rasteriser of Pillow, its loaders, and the
    front-matter collaborators ([frontmatter.py], [str.format],
    [dateutil]). *)
Class Env : Type := mkEnv {
  (** a value of the front matter, and [str(value)] *)
  Value : Type;
  py_str : Value -> str;
  Frontmatter : Type;
  (** the pixel of the source composited over the pixel of the
      destination; a source pixel with alpha 0 leaves the destination
      as it is *)
  over : Pixel -> Pixel -> Pixel;
  over_transparent : forall p, over (0, 0, 0, 0) p = p;
  (** [draw.text(xy, text, font, fill)]: the new value of pixel (i, j) *)
  text_ink : Font -> bool -> Z * Z -> str -> PILColorTuple ->
             Z -> Z -> Pixel -> Pixel;
  (** [ImageFont.load_default()] and [ImageFont.truetype(path, size)] *)
  load_default : outcome Font;
  truetype : str -> Z -> outcome Font;
  (** [Image.open(path)] *)
  Image_open : str -> outcome Image;
  (** [get_frontmatter_formatted(fm, format, sources, defaults,
      missing_ok)] *)
  get_frontmatter_formatted :
    Frontmatter -> str -> list str -> list (str * str) -> bool ->
    outcome Value;
  (** [get_frontmatter_value(fm, source, default, missing_ok, parser)];
      the last argument tells whether the [dateutil] parser is passed *)
  get_frontmatter_value :
    Frontmatter -> str -> option str -> bool -> bool -> outcome Value;
  (** [fmt.format(value, **{source: value})] *)
  str_format : str -> Value -> str -> outcome Value
}.

(** A rendering pass mutates one image. A computation takes the image
    and gives back an outcome together with the image as it is then: a
    raised exception does not undo what was drawn before it. *)
Definition M (A : Type) : Type := Image -> outcome A * Image.

Definition ret {A : Type} (a : A) : M A := fun im => (Ok a, im).

Definition bind {A B : Type} (c : M A) (k : A -> M B) : M B :=
  fun im =>
    match c im with
    | (Ok a, im') => k a im'
    | (Raise e, im') => (Raise e, im')
    end.

Definition lift {A : Type} (o : outcome A) : M A := fun im => (o, im).

Definition get_image : M Image := fun im => (Ok im, im).

Definition put_image (im' : Image) : M unit := fun _ => (Ok tt, im').

Declare Scope py_scope.
Delimit Scope py_scope with py.
Notation "x <- c ;; k" := (bind c (fun x => k))
  (at level 61, c at next level, right associativity) : py_scope.
Notation "c ;;; k" := (bind c (fun _ => k))
  (at level 61, right associativity) : py_scope.

(** ** [config.py] and [pydantic.color.Color] *)

(** [color.as_rgb_tuple()]: three integers, and the alpha as a float
    between 0 and 1 when the colour has one. *)
Inductive RGBTuple : Type :=
| rgb3 (r g b : Z)
| rgb4 (r g b : Z) (a : float).

Record Color : Type := mkColor {
  as_rgb_tuple : RGBTuple
}.

(** Modelled from the spec: [PaddingConfig] of [config.py], which is not
    among the sources; four independent insets, 0 by default. *)
Record PaddingConfig : Type := mkPadding {
  top : Z;
  right : Z;
  bottom : Z;
  left : Z
}.

(** Modelled from the spec: the font of a field in [config.py], either
    the sentinel [DEFAULT_FONT] or the path of a font file. *)
Inductive FontRef : Type :=
| DEFAULT_FONT
| FontFile (path : str).

(** [field.source]: one key, or a list of keys. *)
Inductive Source : Type :=
| SingleSource (key : str)
| MultiSource (keys : list str).

(** [field.default]: absent, one string, or a mapping from key to
    string. *)
Inductive Default : Type :=
| NoDefault
| StrDefault (s : str)
| MapDefault (m : list (str * str)).

(** Modelled from the spec: [TextFieldConfig] of [config.py], with the
    attributes [draw.py] reads. *)
Record TextFieldConfig : Type := mkField {
  source : Source;
  optional : bool;
  default : Default;
  format : option str;
  parse : option str;
  x : Z;
  y : Z;
  font : FontRef;
  font_size : Z;
  fg : Color;
  bg : option Color;
  padding : PaddingConfig;
  wrap : bool;
  max_width : option Z
}.

(** Modelled from the spec: [CardGenConfig] of [config.py]. *)
Record CardGenConfig : Type := mkConfig {
  template : str;
  text_fields : list TextFieldConfig
}.

(** ** [draw.py] *)

Module Draw.

(** *** [round] on a float *)

(** The integer nearest to [m / 2^k], the even one of the two when
    [m / 2^k] is half-way; [0 < k]. *)
Definition round_half_even (m k : Z) : Z :=
  let q := m / 2 ^ k in
  let r := m mod 2 ^ k in
  let h := 2 ^ (k - 1) in
  if r <? h then q
  else if h <? r then q + 1
  else if Z.even q then q else q + 1.

(** [round(x)] of a float, on the sign, mantissa and exponent of [x]:
    the nearest integer, ties to even; NaN and the infinities raise. *)
Definition round_sf (f : spec_float) : outcome Z :=
  match f with
  | S754_zero _ => Ok 0
  | S754_finite s m e =>
      let n := if 0 <=? e then Z.pos m * 2 ^ e
               else round_half_even (Z.pos m) (- e) in
      Ok (if s then - n else n)
  | S754_infinity _ =>
      Raise (OverflowError "cannot convert float infinity to integer")
  | S754_nan => Raise (ValueError "cannot convert float NaN to integer")
  end.

Definition py_round (x : float) : outcome Z := round_sf (Prim2SF x).

(** *** [to_pil_color] *)

Definition to_pil_color (color : Color) : outcome PILColorTuple :=
  let c := as_rgb_tuple color in
  match c with
  | rgb3 r g b => Ok (Tuple3 r g b)
  | rgb4 r g b a =>
      match py_round (a * 255)%float with
      | Ok n => Ok (Tuple4 r g b n)
      | Raise e => Raise e
      end
  end.

(** *** [wrap_font_text] *)

Record wrap_state : Type := mkWrap {
  lines : list (list str);
  cur_line : list str;
  cur_line_width : Z
}.

Definition wrap_init : wrap_state := mkWrap [] [] 0.

(** One turn of the loop over the chunks. *)
Definition wrap_step (font : Font) (max_width : Z)
    (st : wrap_state) (chunk : str) : wrap_state :=
  let width := fst (getsize font chunk) in
  if cur_line_width st + width >? max_width then
    if cur_line_width st =? 0 then
      mkWrap (lines st ++ [[chunk]]) [] 0
    else
      mkWrap (lines st ++ [cur_line st])
             (if isspace chunk then [] else [chunk])
             width
  else
    mkWrap (lines st) (cur_line st ++ [chunk]) (cur_line_width st + width).

Definition wrap_loop (font : Font) (max_width : Z)
    (chunks : list str) : wrap_state :=
  fold_left (wrap_step font max_width) chunks wrap_init.

(** The list [lines] when the function reaches its [return]. *)
Definition wrap_lines (font : Font) (text : str) (max_width : Z)
    : list (list str) :=
  let chunks := TextWrap._split_chunks text in
  let st := wrap_loop font max_width chunks in
  match cur_line st with
  | [] => lines st
  | _ => lines st ++ [cur_line st]
  end.

Definition render_line (line : list str) : str := strip (concat line).

Definition wrap_font_text (font : Font) (text : str) (max_width : Z) : str :=
  join [LF] (map render_line (wrap_lines font text max_width)).

Section WithEnv.

Context {env : Env}.

Local Open Scope py_scope.

(** *** [draw_text_field] *)

Definition load_font (field : TextFieldConfig) : outcome Font :=
  match font field with
  | DEFAULT_FONT => load_default
  | FontFile path => truetype path (font_size field)
  end.

(** [field.max_width if field.max_width else im.width - field.x]:
    [None] and 0 are false. *)
Definition effective_max_width (field : TextFieldConfig) (im : Image) : Z :=
  match max_width field with
  | Some w => if w =? 0 then width im - x field else w
  | None => width im - x field
  end.

Definition wrapped_text (font : Font) (text : str)
    (field : TextFieldConfig) (im : Image) : str :=
  if wrap field
  then wrap_font_text font text (effective_max_width field im)
  else text.

(** The box of the text, grown by the padding. *)
Definition expand (b : Box) (p : PaddingConfig) : Box :=
  let '(x0, y0, x1, y1) := b in
  (x0 - left p, y0 - top p, x1 + right p, y1 + bottom p).

(** The body of [if field.bg:]. *)
Definition draw_background (font : Font) (text : str)
    (field : TextFieldConfig) (c : Color) : M unit :=
  b <- lift (textbbox font (x field, y field) text) ;;
  im <- get_image ;;
  let overlay := new mode_RGBA (size im) (0, 0, 0, 0) in
  _ <- lift (ImageDraw_Draw overlay None) ;;
  fill <- lift (to_pil_color c) ;;
  let overlay := rectangle overlay (expand b (padding field)) fill in
  im' <- lift (alpha_composite over im overlay) ;;
  put_image im'.

(** [draw.text(xy, text, font, fill)] through the context [d]. *)
Definition draw_text (d : Draw) (font : Font) (xy : Z * Z) (text : str)
    (fill : PILColorTuple) : M unit :=
  im <- get_image ;;
  put_image (mkImage (mode im) (size im)
               (fun i j => text_ink font (blend d) xy text fill i j
                             (px im i j))).

Definition draw_text_field (text : str) (field : TextFieldConfig) : M unit :=
  font <- lift (load_font field) ;;
  im <- get_image ;;
  let text := wrapped_text font text field im in
  d <- lift (ImageDraw_Draw im (Some mode_RGBA)) ;;
  match bg field with
  | Some c => draw_background font text field c
  | None => ret tt
  end ;;;
  fill <- lift (to_pil_color (fg field)) ;;
  draw_text d font (x field, y field) text fill.

(** *** [draw] *)

Definition NONE : str := lit "None".

(** [str(field.format)] *)
Definition str_of_format (f : option str) : str :=
  match f with
  | Some s => s
  | None => NONE
  end.

(** The value of one field. *)
Definition field_value (fm : Frontmatter) (field : TextFieldConfig)
    : outcome Value :=
  match source field with
  | MultiSource keys =>
      let defaults :=
        match default field with
        | MapDefault m => m
        | StrDefault s => map (fun k => (k, s)) keys
        | NoDefault => map (fun k => (k, [])) keys
        end in
      get_frontmatter_formatted fm (str_of_format (format field)) keys
        defaults (optional field)
  | SingleSource key =>
      let parser :=
        match parse field with
        | Some p => str_eqb p (lit "datetime")
        | None => false
        end in
      let dflt :=
        match default field with
        | MapDefault m =>
            match find (fun kv => str_eqb (fst kv) key) m with
            | Some kv => Some (snd kv)
            | None => None
            end
        | StrDefault s => Some s
        | NoDefault => None
        end in
      match get_frontmatter_value fm key dflt (optional field) parser with
      | Raise e => Raise e
      | Ok value =>
          match format field with
          | Some (c :: f) => str_format (c :: f) value key
          | _ => Ok value
          end
      end
  end.

(** The body of the loop over [cnf.text_fields]. *)
Definition draw_field (fm : Frontmatter) (field : TextFieldConfig) : M unit :=
  value <- lift (field_value fm field) ;;
  draw_text_field (py_str value) field.

Fixpoint draw_fields (fm : Frontmatter) (fields : list TextFieldConfig)
    : M unit :=
  match fields with
  | [] => ret tt
  | field :: rest => draw_field fm field ;;; draw_fields fm rest
  end.

Definition draw (fm : Frontmatter) (cnf : CardGenConfig) : outcome Image :=
  match Image_open (template cnf) with
  | Raise e => Raise e
  | Ok im =>
      match draw_fields fm (text_fields cnf) im with
      | (Ok _, im') => Ok im'
      | (Raise e, _) => Raise e
      end
  end.

End WithEnv.

End Draw.

(** ** Vocabulary of the properties *)

Module Props.

Import TextWrap.

(** A chunk that is a run of spaces. *)
Definition space_chunk (c : str) : bool :=
  match c with
  | [] => false
  | _ => forallb (is_char SPACE) c
  end.

(** A chunk without any character of [_whitespace]. *)
Definition word_chunk (c : str) : bool :=
  match c with
  | [] => false
  | _ => forallb (fun ch => negb (ws ch)) c
  end.

Definition starts_with_space (chunks : list str) : bool :=
  match chunks with
  | c :: _ => space_chunk c
  | [] => false
  end.

(** No two neighbours are both runs of spaces: every run of spaces is
    a maximal one. *)
Fixpoint space_runs_maximal (chunks : list str) : bool :=
  match chunks with
  | [] => true
  | c :: rest =>
      negb (space_chunk c && starts_with_space rest)
      && space_runs_maximal rest
  end.


(** The rational a finite float stands for. *)
Definition sf_value (f : spec_float) : option Q :=
  match f with
  | S754_zero _ => Some 0%Q
  | S754_finite s m e =>
      let M := if s then Z.neg m else Z.pos m in
      Some (if 0 <=? e then inject_Z (M * 2 ^ e)
            else Qmake M (Z.to_pos (2 ^ (- e))))
  | _ => None
  end.

Definition float_value (x : float) : option Q := sf_value (Prim2SF x).

(** The mantissa of 255.0, whose exponent is -45. *)
Definition M255 : positive := 8972014882652160.

(** The record [y] holds the mantissa of [x] shifted right by [k] bits,
    and its round bit is set only when bits were lost. *)
Definition shifted (k : Z) (x y : shr_record) : Prop :=
  0 <= shr_m x ->
  shr_m y = shr_m x / 2 ^ k /\ (shr_r y = true -> shr_m x mod 2 ^ k <> 0).

(** A line that is a single chunk wider than the budget. *)
Definition lone_wide_chunk (font : Font) (max_width : Z) (line : list str)
    : Prop :=
  exists c, line = [c] /\ fst (getsize font c) > max_width.

(** [l] is a run of consecutive elements of [chunks]. *)
Definition run_of {A : Type} (l chunks : list A) : Prop :=
  exists before after, chunks = before ++ l ++ after.

(** The measured width of a line: the sum of the widths the font gives
    to its chunks. *)
Definition line_width (font : Font) (line : list str) : Z :=
  fold_right Z.add 0 (map (fun c => fst (getsize font c)) line).

(** A line within the budget, or a lone chunk wider than it. *)
Definition line_ok (font : Font) (max_width : Z) (line : list str) : Prop :=
  lone_wide_chunk font max_width line \/ line_width font line <= max_width.

(** What the loop of [wrap_font_text] keeps true: the lines closed so
    far are within the budget, the width on account is at least that of
    the open line, and an open line over the budget is a lone wide
    chunk. *)
Definition width_inv (font : Font) (max_width : Z) (st : Draw.wrap_state)
    : Prop :=
  Forall (line_ok font max_width) (Draw.lines st)
  /\ line_width font (Draw.cur_line st) <= Draw.cur_line_width st
  /\ (Draw.cur_line_width st <= max_width
      \/ Draw.cur_line st = []
      \/ lone_wide_chunk font max_width (Draw.cur_line st))
  /\ (Draw.cur_line_width st = 0 \/ 0 <= max_width).

(** What the loop keeps true of the chunks [seen] so far: every closed
    line is a run of them, and the open line is their tail. *)
Definition chunk_inv (seen : list str) (st : Draw.wrap_state) : Prop :=
  (forall line, In line (Draw.lines st) -> run_of line seen)
  /\ exists before, seen = before ++ Draw.cur_line st.

(** The lines of a rendered text: [out.split(LF)]. *)
Fixpoint splitlines_aux (cur : str) (s : str) : list str :=
  match s with
  | [] => [rev cur]
  | c :: s' =>
      if is_char LF c then rev cur :: splitlines_aux [] s'
      else splitlines_aux (c :: cur) s'
  end.

Definition splitlines (s : str) : list str := splitlines_aux [] s.


(** A fixed-pitch font, 6 pixels a character and 11 pixels high. *)
Definition fixed_pitch : Font :=
  mkFont (fun s => (6 * Z.of_nat (length s), 11))
         (fun xy s =>
            Ok (fst xy, snd xy,
                fst xy + 6 * Z.of_nat (length s), snd xy + 11)).

(** Sample inputs. *)
Definition text_two_lines : str := [chr 97; LF; chr 98].
Definition text_aa_bb : str := lit "aa bb".
Definition text_long_word : str := lit "supercalifragilisticexpialidocious".
Definition text_sentence : str := lit "Look, goof-ball -- use the -b option!".

(** *** A stand-in environment for concrete runs *)

(** Source over destination on integer channels. A source with alpha 0
    leaves the destination; otherwise the alpha of the result is that of
    the source plus what it leaves of the destination, and each colour
    is the mean of the two colours weighted by these two shares. On an
    opaque destination a colour comes out as
    [(src * a + dst * (255 - a)) / 255]. *)
Definition sample_over (src dst : Pixel) : Pixel :=
  if snd src =? 0 then dst
  else
    let '(sr, sg, sb, sa) := src in
    let '(dr, dg, db, da) := dst in
    let share_src := sa * 255 in
    let share_dst := da * (255 - sa) in
    let total := share_src + share_dst in
    ((sr * share_src + dr * share_dst) / total,
     (sg * share_src + dg * share_dst) / total,
     (sb * share_src + db * share_dst) / total,
     total / 255).

(** A rasteriser that inks the whole cell of every character. *)
Definition sample_text_ink (font : Font) (blend : bool) (xy : Z * Z)
    (text : str) (fill : PILColorTuple) (i j : Z) (p : Pixel) : Pixel :=
  if in_box (fst xy, snd xy, fst xy + fst (getsize font text) - 1,
             snd xy + snd (getsize font text) - 1) i j
  then ink fill else p.

Definition sample_image : Image := new mode_RGBA (100, 50) (0, 0, 0, 0).

Definition sample_rgb_image : Image :=
  new mode_RGB (100, 50) (255, 255, 255, 255).

Definition sample_grey_image : Image := new mode_L (100, 50) (255, 0, 0, 0).

Definition sample_lookup (fm : list (str * str)) (key : str) : option str :=
  match find (fun kv => str_eqb (fst kv) key) fm with
  | Some kv => Some (snd kv)
  | None => None
  end.

Definition sample_get_value (fm : list (str * str)) (key : str)
    (dflt : option str) (missing_ok parser : bool) : outcome str :=
  match sample_lookup fm key, dflt with
  | Some v, _ => Ok v
  | None, Some d => Ok d
  | None, None =>
      if missing_ok then Ok []
      else Raise (OtherError "KeyError" "missing front matter key")
  end.

Definition sample_env : Env :=
  mkEnv str (fun v => v) (list (str * str))
    sample_over (fun p => eq_refl) sample_text_ink
    (Ok fixed_pitch)
    (fun path size =>
       match path with
       | [] => Raise (OSError "cannot open resource")
       | _ => Ok fixed_pitch
       end)
    (fun path => Ok sample_image)
    (fun fm fmt keys defaults missing_ok => Ok fmt)
    sample_get_value
    (fun fmt value key => Ok value).

Definition no_padding : PaddingConfig := mkPadding 0 0 0 0.

Definition black : Color := mkColor (rgb3 0 0 0).

(** The colour [#ff000066]: red with the alpha 0.4. *)
Definition translucent_red : Color :=
  mkColor (rgb4 255 0 0 0x1.999999999999ap-2%float).

(** A field read from the key [title], drawn at (10, 20) in the default
    font. *)
Definition sample_field (bg : option Color) (max_width : option Z)
    : TextFieldConfig :=
  mkField (SingleSource (lit "title")) false NoDefault None None
    10 20 DEFAULT_FONT 40 black bg no_padding true max_width.

(** The same field with a font file that cannot be opened. *)
Definition broken_field : TextFieldConfig :=
  mkField (SingleSource (lit "title")) false NoDefault None None
    10 20 (FontFile []) 40 black None no_padding true None.

Definition sample_fm : list (str * str) := [(lit "title", text_aa_bb)].

Definition sample_cnf : CardGenConfig :=
  mkConfig (lit "template.png")
    [sample_field None None; broken_field; sample_field None None].

(** *** Vocabulary of the further properties *)

(** [l] is [m] with some of its elements left out. *)
Inductive subsequence {A : Type} : list A -> list A -> Prop :=
| subsequence_nil : subsequence [] []
| subsequence_skip (x : A) (l m : list A) :
    subsequence l m -> subsequence l (x :: m)
| subsequence_keep (x : A) (l m : list A) :
    subsequence l m -> subsequence (x :: l) (x :: m).

(** A chunk [wrap_font_text] never drops at a line break. *)
Definition is_word (chunk : str) : bool := negb (isspace chunk).

(** What the loop keeps true when the font gives every chunk a positive
    width: the words seen so far are the words of the closed lines and
    of the open line, and an open line with a chunk has a positive width
    on account. *)
Definition words_inv (seen : list str) (st : Draw.wrap_state) : Prop :=
  filter is_word (concat (Draw.lines st) ++ Draw.cur_line st)
  = filter is_word seen
  /\ 0 <= Draw.cur_line_width st
  /\ (Draw.cur_line_width st = 0 -> Draw.cur_line st = []).

Definition no_LF (s : str) : Prop := ~ In LF s.

Definition nonneg_padding (p : PaddingConfig) : Prop :=
  0 <= top p /\ 0 <= right p /\ 0 <= bottom p /\ 0 <= left p.

(** [im'] has the mode and the size of [im]. *)
Definition same_shape (im im' : Image) : Prop :=
  mode im' = mode im /\ size im' = size im.

(** A configuration whose two fields render, the second on a
    translucent background. *)
Definition good_cnf : CardGenConfig :=
  mkConfig (lit "template.png")
    [sample_field None None; sample_field (Some translucent_red) None].

(** The image of an outcome, or [dflt] when it is an exception. *)
Definition card_of (o : outcome Image) (dflt : Image) : Image :=
  match o with
  | Ok im => im
  | Raise _ => dflt
  end.

(** A field read from two keys with one default string. *)
Definition two_key_field : TextFieldConfig :=
  mkField (MultiSource [lit "title"; lit "author"]) false
    (StrDefault (lit "n/a")) (Some (lit "{title} by {author}")) None
    10 20 DEFAULT_FONT 40 black None no_padding true None.

Definition starts_with_word (chunks : list str) : bool :=
  match chunks with
  | c :: _ => word_chunk c
  | [] => false
  end.

(** No two neighbours are both free of whitespace: every run of
    non-whitespace is a maximal one. *)
Fixpoint word_runs_maximal (chunks : list str) : bool :=
  match chunks with
  | [] => true
  | c :: rest =>
      negb (word_chunk c && starts_with_word rest)
      && word_runs_maximal rest
  end.

Definition text_blank : str := [SPACE; TAB; LF; SPACE].

(** *** Vocabulary of alpha compositing *)

Definition byte (v : Z) : Prop := 0 <= v <= 255.

Definition byte_pixel (p : Pixel) : Prop :=
  let '(r, g, b, a) := p in byte r /\ byte g /\ byte b /\ byte a.

Definition alpha_of (p : Pixel) : Z := snd p.

(** A box whose corners are in order, on which every version of
    Pillow fills the pixels between the corners, both included. *)
Definition well_formed (b : Box) : Prop :=
  let '(x0, y0, x1, y1) := b in x0 <= x1 /\ y0 <= y1.

(** [out] is [src * alpha + dst * (1 - alpha)] for the alpha fraction
    [a / 255], to less than one unit of the integer channel. *)
Definition blends_to (src dst a out : Z) : Prop :=
  Z.abs (255 * out - (src * a + dst * (255 - a))) < 255.

(** [out] is the mean of [src] and [dst] with the weights [ws] and
    [wd], to less than one unit. *)
Definition weighted_mean (src dst ws wd out : Z) : Prop :=
  Z.abs (out * (ws + wd) - (src * ws + dst * wd)) < ws + wd.

(** Source over destination: the source weighs its alpha, the
    destination what that alpha leaves of its own; each colour of [out]
    is the weighted mean of the two colours, and the alpha of [out] is
    the sum of the two weights. *)
Definition source_over (src dst out : Pixel) : Prop :=
  let '(sr, sg, sb, sa) := src in
  let '(dr, dg, db, da) := dst in
  let '(r, g, b, a) := out in
  let ws := 255 * sa in
  let wd := da * (255 - sa) in
  weighted_mean sr dr ws wd r
  /\ weighted_mean sg dg ws wd g
  /\ weighted_mean sb db ws wd b
  /\ Z.abs (255 * a - (ws + wd)) < 255.

(** A compositing operator that does alpha compositing, as the one of
    Pillow does on 8-bit channels. *)
Definition alpha_composites (blend : Pixel -> Pixel -> Pixel) : Prop :=
  forall src dst,
    byte_pixel src -> byte_pixel dst -> 0 < alpha_of src ->
    source_over src dst (blend src dst).

(** An opaque white surface. *)
Definition sample_white_image : Image :=
  new mode_RGBA (100, 50) (255, 255, 255, 255).

(** *** The step of a field that raises *)

(** [raises_in_text_field text field im e im'] : in
    [draw_text_field(im, text, field)] the steps go well up to one that
    raises [e], with the surface then [im']. One rule for each call that
    can raise, in the order of the function. *)
Inductive raises_in_text_field {env : Env} (text : str)
    (field : TextFieldConfig) (im : Image) : exception -> Image -> Prop :=
| raises_font (e : exception) :
    Draw.load_font field = Raise e ->
    raises_in_text_field text field im e im
| raises_context (font : Font) (e : exception) :
    Draw.load_font field = Ok font ->
    ImageDraw_Draw im (Some mode_RGBA) = Raise e ->
    raises_in_text_field text field im e im
| raises_textbbox (font : Font) (d : Draw) (c : Color) (e : exception) :
    Draw.load_font field = Ok font ->
    ImageDraw_Draw im (Some mode_RGBA) = Ok d ->
    bg field = Some c ->
    textbbox font (x field, y field) (Draw.wrapped_text font text field im)
    = Raise e ->
    raises_in_text_field text field im e im
| raises_bg_color (font : Font) (d : Draw) (c : Color) (b : Box)
    (e : exception) :
    Draw.load_font field = Ok font ->
    ImageDraw_Draw im (Some mode_RGBA) = Ok d ->
    bg field = Some c ->
    textbbox font (x field, y field) (Draw.wrapped_text font text field im)
    = Ok b ->
    Draw.to_pil_color c = Raise e ->
    raises_in_text_field text field im e im
| raises_composite (font : Font) (d : Draw) (c : Color) (b : Box)
    (fill : PILColorTuple) (e : exception) :
    Draw.load_font field = Ok font ->
    ImageDraw_Draw im (Some mode_RGBA) = Ok d ->
    bg field = Some c ->
    textbbox font (x field, y field) (Draw.wrapped_text font text field im)
    = Ok b ->
    Draw.to_pil_color c = Ok fill ->
    alpha_composite over im
      (rectangle (new mode_RGBA (size im) (0, 0, 0, 0))
         (Draw.expand b (padding field)) fill)
    = Raise e ->
    raises_in_text_field text field im e im
| raises_fg_color (font : Font) (d : Draw) (e : exception) :
    Draw.load_font field = Ok font ->
    ImageDraw_Draw im (Some mode_RGBA) = Ok d ->
    bg field = None ->
    Draw.to_pil_color (fg field) = Raise e ->
    raises_in_text_field text field im e im
| raises_fg_color_on_bg (font : Font) (d : Draw) (c : Color) (b : Box)
    (fill : PILColorTuple) (im1 : Image) (e : exception) :
    Draw.load_font field = Ok font ->
    ImageDraw_Draw im (Some mode_RGBA) = Ok d ->
    bg field = Some c ->
    textbbox font (x field, y field) (Draw.wrapped_text font text field im)
    = Ok b ->
    Draw.to_pil_color c = Ok fill ->
    alpha_composite over im
      (rectangle (new mode_RGBA (size im) (0, 0, 0, 0))
         (Draw.expand b (padding field)) fill)
    = Ok im1 ->
    Draw.to_pil_color (fg field) = Raise e ->
    raises_in_text_field text field im e im1.

(** The arguments [draw] gives to the collaborators of the front
    matter: the defaults of a field read from several keys, the default
    of a field read from one key, and whether the parser of dates is
    passed. *)
Definition field_defaults (field : TextFieldConfig) (keys : list str)
    : list (str * str) :=
  match default field with
  | MapDefault m => m
  | StrDefault s => map (fun k => (k, s)) keys
  | NoDefault => map (fun k => (k, [])) keys
  end.

Definition field_default (field : TextFieldConfig) (key : str)
    : option str :=
  match default field with
  | MapDefault m =>
      match find (fun kv => str_eqb (fst kv) key) m with
      | Some kv => Some (snd kv)
      | None => None
      end
  | StrDefault s => Some s
  | NoDefault => None
  end.

Definition field_parser (field : TextFieldConfig) : bool :=
  match parse field with
  | Some p => str_eqb p (lit "datetime")
  | None => false
  end.

(** The same for one turn of the loop of [draw]: a collaborator of the
    front matter raises, or the formatting of the value does, or a step
    of [draw_text_field] does. *)
Inductive raises_in_field {env : Env} (fm : Frontmatter)
    (field : TextFieldConfig) (im : Image) : exception -> Image -> Prop :=
| raises_formatted (keys : list str) (e : exception) :
    source field = MultiSource keys ->
    get_frontmatter_formatted fm (Draw.str_of_format (format field)) keys
      (field_defaults field keys) (optional field)
    = Raise e ->
    raises_in_field fm field im e im
| raises_lookup (key : str) (e : exception) :
    source field = SingleSource key ->
    get_frontmatter_value fm key (field_default field key) (optional field)
      (field_parser field)
    = Raise e ->
    raises_in_field fm field im e im
| raises_format (key : str) (value : Value) (c : ascii) (f : str)
    (e : exception) :
    source field = SingleSource key ->
    get_frontmatter_value fm key (field_default field key) (optional field)
      (field_parser field)
    = Ok value ->
    format field = Some (c :: f) ->
    str_format (c :: f) value key = Raise e ->
    raises_in_field fm field im e im
| raises_drawing (value : Value) (e : exception) (im' : Image) :
    Draw.field_value fm field = Ok value ->
    raises_in_text_field (py_str value) field im e im' ->
    raises_in_field fm field im e im'.

(** A colour whose alpha is not a number. *)
Definition nan_color : Color := mkColor (rgb4 255 0 0 nan).

(** Three fields, the background of the second of a colour that does
    not convert. *)
Definition nan_cnf : CardGenConfig :=
  mkConfig (lit "template.png")
    [sample_field None None; sample_field (Some nan_color) None;
     sample_field None None].

End Props.

Import Props.

(** * Properties *)

(** ** The tokenizer *)

Module TextWrapFacts.

Import TextWrap.

(** The two examples in the comments of [textwrap.py]. *)
Example split_chunks_hello :
  _split_chunks (lit "Hello there -- you goof-ball, use the -b option!")
  = map lit ["Hello"; " "; "there"; " "; "--"; " "; "you"; " "; "goof-";
             "ball,"; " "; "use"; " "; "the"; " "; "-b"; " ";
             "option!"]%string.
Proof. vm_compute. reflexivity. Qed.

Example split_chunks_look :
  _split_chunks text_sentence
  = map lit ["Look,"; " "; "goof-"; "ball"; " "; "--"; " "; "use"; " ";
             "the"; " "; "-b"; " "; "option!"]%string.
Proof. vm_compute. reflexivity. Qed.

(** A tab is expanded to the next multiple of 8 columns, and a line
    feed becomes a space. *)
Example munge_whitespace_tab :
  _munge_whitespace [chr 97; TAB; chr 98; LF; chr 99]
  = chr 97 :: repeat SPACE 7 ++ [chr 98; SPACE; chr 99].
Proof. vm_compute. reflexivity. Qed.

Lemma ws_len_le (s : str) : (ws_len s <= length s)%nat.
Proof. induction s as [|c s IH]; simpl; [|destruct (ws c); simpl]; lia. Qed.

Lemma dashes_le (s : str) : (dashes s <= length s)%nat.
Proof.
  induction s as [|c s IH]; simpl; [|destruct (is_char HYPHEN c); simpl]; lia.
Qed.

Lemma word_len_le (s : str) : forall back, (word_len back s <= length s)%nat.
Proof.
  induction s as [|c s IH]; intros back; [simpl; lia|].
  cbn [word_len length].
  destruct (hyphen_break back (c :: s)); [lia|].
  destruct (ws c); [lia|].
  destruct (after_word_punct back && emdash_ahead (c :: s)); [lia|].
  specialize (IH (c :: back)). lia.
Qed.

Lemma emdash_ahead_dashes (s : str) :
  emdash_ahead s = true -> (2 <= dashes s)%nat.
Proof.
  unfold emdash_ahead. intros H.
  apply andb_true_iff in H. destruct H as [H _].
  now apply Nat.leb_le in H.
Qed.

Lemma match_len_bounds (back : str) (c : ascii) (s : str) :
  (1 <= match_len back (c :: s) <= S (length s))%nat.
Proof.
  unfold match_len.
  destruct (ws c) eqn:Hws.
  - pose proof (ws_len_le (c :: s)) as H. simpl in *. rewrite Hws in *. lia.
  - destruct (after_word_punct back && emdash_ahead (c :: s)) eqn:Hem.
    + apply andb_true_iff in Hem. destruct Hem as [_ Hem].
      apply emdash_ahead_dashes in Hem.
      pose proof (dashes_le (c :: s)) as H. simpl length in H. lia.
    + pose proof (word_len_le s (c :: back)). lia.
Qed.

Lemma split_from_cons (fuel : nat) (back : str) (c : ascii) (s : str) :
  split_from (S fuel) back (c :: s) =
  firstn (match_len back (c :: s)) (c :: s)
  :: split_from fuel
       (rev (firstn (match_len back (c :: s)) (c :: s)) ++ back)
       (skipn (match_len back (c :: s)) (c :: s)).
Proof. reflexivity. Qed.

(** With fuel for every character, the chunks cover the text. *)
Lemma split_from_concat (fuel : nat) :
  forall back s, (length s <= fuel)%nat ->
                 concat (split_from fuel back s) = s.
Proof.
  induction fuel as [|fuel IH]; intros back s Hlen.
  - destruct s; [reflexivity | simpl in Hlen; lia].
  - destruct s as [|c s]; [reflexivity|].
    rewrite split_from_cons. cbn [concat].
    pose proof (match_len_bounds back c s) as Hn.
    rewrite IH.
    + apply firstn_skipn.
    + rewrite length_skipn. simpl length in *. lia.
Qed.

(** *** The kind of a chunk *)

Lemma is_char_eq (d c : ascii) : is_char d c = true -> c = d.
Proof. unfold is_char. apply Ascii.eqb_eq. Qed.



Lemma hyphen_break_head (back : str) (c : ascii) (s : str) :
  hyphen_break back (c :: s) = true -> c = HYPHEN.
Proof.
  unfold hyphen_break. intros H.
  apply andb_true_iff in H. destruct H as [H _].
  apply andb_true_iff in H. destruct H as [H _].
  now apply is_char_eq.
Qed.



Lemma chunk_head (back : str) (c : ascii) (s : str) :
  exists t, firstn (match_len back (c :: s)) (c :: s) = c :: t.
Proof.
  pose proof (match_len_bounds back c s) as Hn.
  destruct (match_len back (c :: s)) as [|n]; [lia|].
  now exists (firstn n s).
Qed.





(** *** Runs of spaces are maximal *)

Lemma skipn_ws_len_head (s : str) :
  match skipn (ws_len s) s with
  | ch :: _ => ws ch = false
  | [] => True
  end.
Proof.
  induction s as [|c s IH]; [exact I|].
  simpl. destruct (ws c) eqn:Hws; simpl; assumption.
Qed.

Lemma space_chunk_head (c : ascii) (t : str) :
  space_chunk (c :: t) = true -> ws c = true.
Proof.
  simpl. intros H. apply andb_true_iff in H. destruct H as [H _].
  apply is_char_eq in H. now subst c.
Qed.

Lemma starts_with_space_head (fuel : nat) (back s : str) :
  starts_with_space (split_from fuel back s) = true ->
  match s with
  | ch :: _ => ws ch = true
  | [] => False
  end.
Proof.
  destruct fuel as [|fuel]; destruct s as [|c s]; simpl; try discriminate.
  intros H.
  change (space_chunk (firstn (match_len back (c :: s)) (c :: s)) = true)
    in H.
  destruct (chunk_head back c s) as [t Ht]. rewrite Ht in H.
  now apply space_chunk_head in H.
Qed.

Lemma split_from_maximal (fuel : nat) :
  forall back s, space_runs_maximal (split_from fuel back s) = true.
Proof.
  induction fuel as [|fuel IH]; intros back s.
  - destruct s; reflexivity.
  - destruct s as [|c s]; [reflexivity|].
    rewrite split_from_cons. cbn [space_runs_maximal].
    rewrite IH, andb_true_r. apply negb_true_iff, andb_false_iff.
    destruct (space_chunk (firstn (match_len back (c :: s)) (c :: s))) eqn:Hc;
      [right | now left].
    destruct (chunk_head back c s) as [t Ht].
    rewrite Ht in Hc. apply space_chunk_head in Hc.
    destruct (starts_with_space _) eqn:Hs; [exfalso | reflexivity].
    apply starts_with_space_head in Hs.
    assert (match_len back (c :: s) = ws_len (c :: s)) as Hm
      by (unfold match_len; now rewrite Hc).
    rewrite Hm in Hs.
    pose proof (skipn_ws_len_head (c :: s)) as Hh.
    destruct (skipn (ws_len (c :: s)) (c :: s)); [assumption | congruence].
Qed.

(** *** Text without tabs and other whitespace is left as it is *)

Lemma expandtabs_no_tab (tabsize : nat) (s : str) :
  forall col,
    (forall ch, In ch s -> is_char TAB ch = false) ->
    expandtabs_aux tabsize col s = s.
Proof.
  induction s as [|c s IH]; intros col H; [reflexivity|].
  simpl. rewrite (H c (or_introl eq_refl)). f_equal.
  apply IH. intros ch Hin. apply H. now right.
Qed.


End TextWrapFacts.

(** ** [wrap_font_text] *)

Module WrapFacts.

Import Draw.

Lemma wrap_loop_app (font : Font) (max_width : Z) (chunks : list str)
    (st : wrap_state) (chunk : str) :
  fold_left (wrap_step font max_width) (chunks ++ [chunk]) st =
  wrap_step font max_width (fold_left (wrap_step font max_width) chunks st)
    chunk.
Proof. now rewrite fold_left_app. Qed.

Lemma line_width_app (font : Font) (l1 l2 : list str) :
  line_width font (l1 ++ l2) = line_width font l1 + line_width font l2.
Proof.
  unfold line_width. induction l1 as [|c l1 IH]; simpl; [reflexivity|].
  rewrite IH. lia.
Qed.

(** *** The width bound *)

Section WidthBound.

Variable font : Font.
Variable max_width : Z.
Hypothesis getsize_nonneg : forall s, 0 <= fst (getsize font s).

Lemma width_inv_init : width_inv font max_width wrap_init.
Proof.
  unfold width_inv, wrap_init; simpl.
  repeat split; [constructor | unfold line_width; simpl; lia | auto | auto].
Qed.

Lemma width_inv_line_ok (st : wrap_state) :
  width_inv font max_width st ->
  cur_line_width st <> 0 \/ cur_line st <> [] ->
  line_ok font max_width (cur_line st).
Proof.
  intros (_ & Hb & Hc & Hd) Hne.
  destruct Hc as [Hc | [Hc | Hc]].
  - right. lia.
  - right. rewrite Hc in *. unfold line_width; simpl.
    destruct Hne as [Hne | Hne]; [lia | contradiction].
  - now left.
Qed.

Lemma width_inv_step (st : wrap_state) (chunk : str) :
  width_inv font max_width st ->
  width_inv font max_width (wrap_step font max_width st chunk).
Proof.
  intros Hinv. pose proof Hinv as (Ha & Hb & Hc & Hd).
  pose proof (getsize_nonneg chunk) as Hw.
  unfold wrap_step.
  destruct (Z.gtb_spec (cur_line_width st + fst (getsize font chunk)) max_width)
    as [Hover | Hfit].
  - destruct (Z.eqb_spec (cur_line_width st) 0) as [Hz | Hnz].
    + unfold width_inv; simpl. repeat split.
      * apply Forall_app. split; [assumption|].
        constructor; [|constructor]. left. exists chunk.
        split; [reflexivity | lia].
      * unfold line_width; simpl; lia.
      * auto.
      * auto.
    + unfold width_inv; simpl. repeat split.
      * apply Forall_app. split; [assumption|].
        constructor; [|constructor]. apply width_inv_line_ok; auto.
      * destruct (isspace chunk); unfold line_width; simpl; lia.
      * destruct (isspace chunk); [auto|].
        destruct (Z_le_gt_dec (fst (getsize font chunk)) max_width);
          [now left | right; right].
        exists chunk. split; [reflexivity | assumption].
      * right. lia.
  - unfold width_inv; simpl. repeat split.
    + assumption.
    + rewrite line_width_app. unfold line_width at 2; simpl. lia.
    + left. lia.
    + right. lia.
Qed.

Lemma width_inv_loop (chunks : list str) :
  forall st,
    width_inv font max_width st ->
    width_inv font max_width
      (fold_left (wrap_step font max_width) chunks st).
Proof.
  induction chunks as [|c chunks IH]; intros st Hinv; [assumption|].
  simpl. apply IH. now apply width_inv_step.
Qed.

Lemma wrap_lines_ok (text : str) :
  Forall (line_ok font max_width) (wrap_lines font text max_width).
Proof.
  unfold wrap_lines, wrap_loop.
  pose proof (width_inv_loop (TextWrap._split_chunks text) _ width_inv_init)
    as Hinv.
  set (st := fold_left _ _ _) in *.
  destruct (cur_line st) eqn:Hcur.
  - apply Hinv.
  - apply Forall_app. split; [apply Hinv|].
    constructor; [|constructor].
    rewrite <- Hcur. apply width_inv_line_ok; [assumption|].
    right. now rewrite Hcur.
Qed.

End WidthBound.

(** *** Lines are runs of whole chunks *)

Lemma run_of_snoc (l seen : list str) (chunk : str) :
  run_of l seen -> run_of l (seen ++ [chunk]).
Proof.
  intros (before & after & ->). exists before, (after ++ [chunk]).
  now rewrite <- !app_assoc.
Qed.

Lemma chunk_inv_step (font : Font) (max_width : Z) (seen : list str)
    (st : wrap_state) (chunk : str) :
  chunk_inv seen st ->
  chunk_inv (seen ++ [chunk]) (wrap_step font max_width st chunk).
Proof.
  intros (Hlines & before & Hcur).
  assert (forall line, In line (lines st) -> run_of line (seen ++ [chunk]))
    as Hlines' by (intros line Hin; now apply run_of_snoc, Hlines).
  assert (run_of [chunk] (seen ++ [chunk])) as Hlast
    by (exists seen, []; now rewrite app_nil_r).
  assert (run_of (cur_line st) (seen ++ [chunk])) as Hopen
    by (apply run_of_snoc; exists before, []; now rewrite app_nil_r).
  unfold wrap_step.
  destruct (_ >? _).
  - destruct (_ =? _); split; simpl.
    + intros line Hin. apply in_app_or in Hin.
      destruct Hin as [Hin | [<- | []]]; auto.
    + exists (seen ++ [chunk]). now rewrite app_nil_r.
    + intros line Hin. apply in_app_or in Hin.
      destruct Hin as [Hin | [<- | []]]; auto.
    + destruct (isspace chunk).
      * exists (seen ++ [chunk]). now rewrite app_nil_r.
      * now exists seen.
  - split; simpl; [assumption|].
    exists before. rewrite Hcur. now rewrite <- app_assoc.
Qed.

Lemma chunk_inv_loop (font : Font) (max_width : Z) (chunks : list str) :
  forall seen st,
    chunk_inv seen st ->
    chunk_inv (seen ++ chunks)
      (fold_left (wrap_step font max_width) chunks st).
Proof.
  induction chunks as [|c chunks IH]; intros seen st Hinv.
  - now rewrite app_nil_r.
  - simpl. replace (seen ++ c :: chunks) with ((seen ++ [c]) ++ chunks)
      by now rewrite <- app_assoc.
    apply IH. now apply chunk_inv_step.
Qed.

Lemma wrap_lines_runs (font : Font) (text : str) (max_width : Z)
    (line : list str) :
  In line (wrap_lines font text max_width) ->
  run_of line (TextWrap._split_chunks text).
Proof.
  unfold wrap_lines, wrap_loop.
  assert (chunk_inv [] wrap_init) as Hinit.
  { split; [intros l []|]. now exists []. }
  pose proof (chunk_inv_loop font max_width (TextWrap._split_chunks text)
                [] _ Hinit)
    as (Hlines & before & Hcur).
  simpl app in *.
  set (st := fold_left _ _ _) in *.
  intros Hin.
  assert (In line (lines st) \/ line = cur_line st) as [H | ->].
  { destruct (cur_line st); [now left|].
    apply in_app_or in Hin. destruct Hin as [Hin | [<- | []]]; auto. }
  - now apply Hlines.
  - exists before, []. now rewrite app_nil_r.
Qed.

(** *** [strip] on a string without whitespace *)

Lemma lstrip_head (s : str) :
  match s with
  | c :: _ => isspace_char c = false
  | [] => True
  end -> lstrip s = s.
Proof. destruct s as [|c s]; [reflexivity|]. simpl. now intros ->. Qed.

Lemma strip_no_whitespace (s : str) :
  forallb (fun c => negb (isspace_char c)) s = true -> strip s = s.
Proof.
  intros H. rewrite forallb_forall in H.
  assert (forall t, (forall c, In c t -> In c s) -> lstrip t = t) as Hl.
  { intros t Hsub. apply lstrip_head. destruct t as [|c t]; [exact I|].
    apply negb_true_iff, H, Hsub. now left. }
  unfold strip, rstrip. rewrite (Hl s) by auto.
  rewrite Hl; [apply rev_involutive|].
  intros c Hin. now apply in_rev.
Qed.

End WrapFacts.

(** ** Rounding a float, and the product of a fraction by 255 *)

Module FloatFacts.

Import Draw.

Lemma digits2_pos_bounds (m : positive) :
  2 ^ (Z.pos (digits2_pos m) - 1) <= Z.pos m < 2 ^ Z.pos (digits2_pos m).
Proof.
  induction m as [m IH | m IH |]; simpl digits2_pos.
  - rewrite Pos2Z.inj_succ.
    replace (Z.succ (Z.pos (digits2_pos m)) - 1)
      with (Z.succ (Z.pos (digits2_pos m) - 1)) by lia.
    rewrite !Z.pow_succ_r by lia. lia.
  - rewrite Pos2Z.inj_succ.
    replace (Z.succ (Z.pos (digits2_pos m)) - 1)
      with (Z.succ (Z.pos (digits2_pos m) - 1)) by lia.
    rewrite !Z.pow_succ_r by lia. lia.
  - simpl. lia.
Qed.

Lemma digits2_pos_le (m : positive) (d : Z) :
  Z.pos m < 2 ^ d -> 0 <= d -> Z.pos (digits2_pos m) <= d.
Proof.
  intros Hm Hd. pose proof (digits2_pos_bounds m) as [Hlo _].
  assert (2 ^ (Z.pos (digits2_pos m) - 1) < 2 ^ d) as H by lia.
  apply Z.pow_lt_mono_r_iff in H; lia.
Qed.


Lemma shr_1_spec (x : shr_record) :
  0 <= shr_m x ->
  shr_m (shr_1 x) = shr_m x / 2
  /\ (shr_r (shr_1 x) = true -> shr_m x mod 2 <> 0).
Proof.
  destruct x as [m r s]. simpl. intros Hm.
  destruct m as [|p|p]; [| |lia].
  - simpl. split; [reflexivity | discriminate].
  - destruct p as [p|p|]; simpl shr_m; simpl shr_r.
    + split.
      * rewrite Pos2Z.inj_xI. apply Z.div_unique with (r := 1); lia.
      * intros _. rewrite Pos2Z.inj_xI.
        rewrite Z.add_comm, Z.mul_comm, Z.mod_add by lia. discriminate.
    + split; [|discriminate].
      rewrite Pos2Z.inj_xO. apply Z.div_unique with (r := 0); lia.
    + split; [reflexivity | intros _; discriminate].
Qed.

Lemma mod_mul_nonzero (m a b : Z) :
  0 < a -> 0 < b -> m mod a <> 0 \/ (m / a) mod b <> 0 -> m mod (a * b) <> 0.
Proof.
  intros Ha Hb H Hz.
  apply Z.mod_divide in Hz; [|lia]. destruct Hz as [q Hq].
  assert (m = (q * b) * a) as Hm by lia.
  destruct H as [H | H]; apply H.
  - rewrite Hm. apply Z.mod_mul. lia.
  - rewrite Hm, Z.div_mul by lia. apply Z.mod_mul. lia.
Qed.


Lemma shifted_trans (k1 k2 : Z) (x y z : shr_record) :
  0 <= k1 -> 0 <= k2 ->
  shifted k1 x y -> shifted k2 y z -> shifted (k1 + k2) x z.
Proof.
  intros Hk1 Hk2 Hxy Hyz Hx.
  destruct (Hxy Hx) as [Hy1 Hy2].
  assert (0 <= shr_m y) as Hy by (rewrite Hy1; apply Z.div_pos; lia).
  destruct (Hyz Hy) as [Hz1 Hz2].
  rewrite Z.pow_add_r by lia. split.
  - rewrite Hz1, Hy1. apply Z.div_div; lia.
  - intros Hr. apply mod_mul_nonzero; try lia.
    right. rewrite <- Hy1. now apply Hz2.
Qed.

Lemma iter_pos_shifted (p : positive) :
  forall x, shifted (Z.pos p) x (SpecFloat.iter_pos shr_1 p x).
Proof.
  assert (forall x, shifted 1 x (shr_1 x)) as H1.
  { intros x Hx. rewrite Z.pow_1_r. now apply shr_1_spec. }
  induction p as [p IH | p IH |]; intros x; simpl SpecFloat.iter_pos.
  - replace (Z.pos p~1) with (1 + (Z.pos p + Z.pos p)) by lia.
    eapply shifted_trans; [lia | lia | apply H1 |].
    eapply shifted_trans; [lia | lia | apply IH | apply IH].
  - replace (Z.pos p~0) with (Z.pos p + Z.pos p) by lia.
    eapply shifted_trans; [lia | lia | apply IH | apply IH].
  - apply H1.
Qed.

Lemma shr_spec (x : shr_record) (e n : Z) :
  shr_r x = false ->
  exists y, shr x e n = (y, e + Z.max 0 n) /\ shifted (Z.max 0 n) x y.
Proof.
  intros Hr. destruct n as [|p|p]; simpl shr.
  - exists x. rewrite Z.add_0_r. split; [reflexivity|].
    intros _. simpl. rewrite Z.div_1_r. split; [reflexivity | congruence].
  - exists (SpecFloat.iter_pos shr_1 p x). split; [reflexivity|].
    replace (Z.max 0 (Z.pos p)) with (Z.pos p) by lia. apply iter_pos_shifted.
  - exists x. replace (Z.max 0 (Z.neg p)) with 0 by lia. rewrite Z.add_0_r.
    split; [reflexivity|].
    intros _. simpl. rewrite Z.div_1_r. split; [reflexivity | congruence].
Qed.

Lemma round_nearest_even_bounds (y : shr_record) :
  shr_m y <= round_nearest_even (shr_m y) (loc_of_shr_record y)
  /\ round_nearest_even (shr_m y) (loc_of_shr_record y)
     <= shr_m y + (if shr_r y then 1 else 0).
Proof.
  destruct y as [m [] []]; simpl; try lia.
  destruct (IntDef.Z.even m); lia.
Qed.


Lemma mul_255_bound (m : positive) (e : Z) :
  Z.pos m <= 2 ^ (- e) -> e <= -52 ->
  match SFmul prec emax (S754_finite false m e)
          (S754_finite false M255 (-45)) with
  | S754_zero s => s = false
  | S754_finite s m3 e3 =>
      s = false
      /\ (0 <= e3 -> Z.pos m3 * 2 ^ e3 <= 255)
      /\ (e3 < 0 -> Z.pos m3 <= 255 * 2 ^ (- e3))
  | _ => False
  end.
Proof.
  intros Hm He.
  set (K := - e + 45).
  assert (0 <= K) as HK by lia.
  assert (Z.pos (m * M255) <= 255 * 2 ^ K) as HmM.
  { rewrite Pos2Z.inj_mul. change (Z.pos M255) with (255 * 2 ^ 45).
    unfold K. rewrite Z.pow_add_r by lia.
    assert (0 < 2 ^ 45) by lia. nia. }
  assert (Z.pos (m * M255) < 2 ^ (K + 53)) as Hdig.
  { rewrite Z.pow_add_r by lia.
    assert (0 < 2 ^ K) by (apply Z.pow_pos_nonneg; lia).
    change (2 ^ 53) with 9007199254740992. nia. }
  unfold SFmul, binary_round_aux, shr_fexp. simpl xorb.
  replace (e + -45) with (- K) by (unfold K; lia).
  simpl shr_record_of_loc at 1.
  set (n1 := fexp prec emax (Zdigits2 (Z.pos (m * M255)) + - K) - - K).
  destruct (shr_spec
              {| shr_m := Z.pos (m * M255); shr_r := false; shr_s := false |}
              (- K) n1 eq_refl) as (y1 & Heq1 & Hsh1).
  rewrite Heq1. clear Heq1.
  set (s1 := Z.max 0 n1) in *.
  assert (0 <= s1 <= K) as Hs1.
  { unfold s1, n1, fexp, emin, prec, emax. simpl Zdigits2.
    pose proof (digits2_pos_le (m * M255) (K + 53) Hdig). lia. }
  destruct (Hsh1 ltac:(simpl; lia)) as [Hy1 Hr1]. simpl shr_m in Hy1, Hr1.
  pose proof (round_nearest_even_bounds y1) as [Hlo Hhi].
  set (m2 := round_nearest_even (shr_m y1) (loc_of_shr_record y1)) in *.
  assert (0 < 2 ^ s1) as HD by (apply Z.pow_pos_nonneg; lia).
  assert (0 <= shr_m y1) as Hy1pos by (rewrite Hy1; apply Z.div_pos; lia).
  assert (0 <= m2) as Hm2 by lia.
  assert (m2 * 2 ^ s1 <= 255 * 2 ^ K) as Hb2.
  { assert (2 ^ K = 2 ^ (K - s1) * 2 ^ s1) as HKs
      by (rewrite <- Z.pow_add_r by lia; f_equal; lia).
    assert (0 < 2 ^ (K - s1)) by (apply Z.pow_pos_nonneg; lia).
    pose proof (Z.mul_div_le (Z.pos (m * M255)) (2 ^ s1) HD) as Hfl.
    destruct (shr_r y1).
    - specialize (Hr1 eq_refl).
      assert (Z.pos (m * M255) <> (255 * 2 ^ (K - s1)) * 2 ^ s1) as Hne.
      { intros Heq. apply Hr1. rewrite Heq. apply Z.mod_mul. lia. }
      assert (Z.pos (m * M255) / 2 ^ s1 < 255 * 2 ^ (K - s1)) as Hlt
        by (apply Z.div_lt_upper_bound; nia).
      nia.
    - nia. }
  simpl shr_record_of_loc.
  set (n2 := fexp prec emax (Zdigits2 m2 + (- K + s1)) - (- K + s1)).
  destruct (shr_spec {| shr_m := m2; shr_r := false; shr_s := false |}
              (- K + s1) n2 eq_refl) as (y2 & Heq2 & Hsh2).
  rewrite Heq2. clear Heq2.
  set (s2 := Z.max 0 n2) in *.
  assert (0 <= s2) as Hs2 by lia.
  destruct (Hsh2 ltac:(simpl; lia)) as [Hy2 _]. simpl shr_m in Hy2.
  assert (0 < 2 ^ s2) as HD2 by (apply Z.pow_pos_nonneg; lia).
  pose proof (Z.mul_div_le m2 (2 ^ s2) HD2) as Hfl2. rewrite <- Hy2 in Hfl2.
  assert (0 <= shr_m y2) as Hy2pos by (rewrite Hy2; apply Z.div_pos; lia).
  assert (shr_m y2 * 2 ^ (s1 + s2) <= 255 * 2 ^ K) as Hb3.
  { rewrite Z.pow_add_r by lia. nia. }
  destruct (shr_m y2) as [|m3|m3] eqn:Hm3; [reflexivity | | lia].
  assert (s1 + s2 < K + 8) as He3.
  { apply (Z.pow_lt_mono_r_iff 2); [lia | lia |].
    rewrite (Z.pow_add_r 2 K 8) by lia.
    assert (0 < 2 ^ (s1 + s2)) by (apply Z.pow_pos_nonneg; lia).
    assert (0 < 2 ^ K) by (apply Z.pow_pos_nonneg; lia).
    change (2 ^ 8) with 256. nia. }
  replace (- K + s1 + s2 <=? emax - prec) with true
    by (symmetry; apply Z.leb_le; unfold emax, prec; lia).
  split; [reflexivity|]. 
  assert (0 < 2 ^ K) as HpK by (apply Z.pow_pos_nonneg; lia).
  split; intros Hsign.
  - assert (2 ^ (s1 + s2) = 2 ^ K * 2 ^ (- K + s1 + s2)) as Hsplit
      by (rewrite <- Z.pow_add_r by lia; f_equal; lia).
    rewrite Hsplit in Hb3.
    apply (Z.mul_le_mono_pos_l _ _ (2 ^ K)); lia.
  - assert (2 ^ K = 2 ^ (s1 + s2) * 2 ^ (- (- K + s1 + s2))) as Hsplit
      by (rewrite <- Z.pow_add_r by lia; f_equal; lia).
    rewrite Hsplit in Hb3.
    assert (0 < 2 ^ (s1 + s2)) by (apply Z.pow_pos_nonneg; lia).
    apply (Z.mul_le_mono_pos_l _ _ (2 ^ (s1 + s2))); lia.
Qed.

Lemma round_half_even_cases (m k : Z) :
  0 <= m -> 0 < k ->
  let n := round_half_even m k in
  2 * Z.abs (n * 2 ^ k - m) <= 2 ^ k
  /\ m / 2 ^ k <= n <= m / 2 ^ k + 1
  /\ (m mod 2 ^ k = 0 -> n = m / 2 ^ k).
Proof.
  intros Hm Hk n. subst n. unfold round_half_even.
  assert (0 < 2 ^ (k - 1)) as Hh by (apply Z.pow_pos_nonneg; lia).
  assert (2 ^ k = 2 * 2 ^ (k - 1)) as Hpow.
  { replace k with (Z.succ (k - 1)) at 1 by lia. apply Z.pow_succ_r. lia. }
  pose proof (Z.div_mod m (2 ^ k) ltac:(lia)) as Hdm.
  pose proof (Z.mod_pos_bound m (2 ^ k) ltac:(lia)) as Hr.
  set (q := m / 2 ^ k) in *. set (r := m mod 2 ^ k) in *.
  destruct (Z.ltb_spec r (2 ^ (k - 1)));
    [|destruct (Z.ltb_spec (2 ^ (k - 1)) r); [|destruct (Z.even q)]];
    repeat split; try lia.
Qed.

Lemma round_sf_bound (s : bool) (m : positive) (e : Z) :
  s = false ->
  (0 <= e -> Z.pos m * 2 ^ e <= 255) ->
  (e < 0 -> Z.pos m <= 255 * 2 ^ (- e)) ->
  exists n, round_sf (S754_finite s m e) = Ok n /\ 0 <= n <= 255.
Proof.
  intros -> Hpos Hneg. unfold round_sf.
  destruct (Z.leb_spec 0 e) as [He | He].
  - eexists. split; [reflexivity|]. specialize (Hpos He).
    assert (0 < 2 ^ e) by (apply Z.pow_pos_nonneg; lia). nia.
  - eexists. split; [reflexivity|]. specialize (Hneg He).
    pose proof (round_half_even_cases (Z.pos m) (- e) ltac:(lia) ltac:(lia))
      as (_ & [Hlo Hhi] & Hexact).
    assert (0 < 2 ^ (- e)) as Hp by (apply Z.pow_pos_nonneg; lia).
    assert (0 <= Z.pos m / 2 ^ (- e)) by (apply Z.div_pos; lia).
    split; [lia|].
    destruct (Z.eq_dec (Z.pos m) (255 * 2 ^ (- e))) as [Heq | Hne].
    + rewrite Hexact; rewrite Heq.
      * rewrite Z.div_mul; lia.
      * apply Z.mod_mul. lia.
    + assert (Z.pos m / 2 ^ (- e) < 255)
        by (apply Z.div_lt_upper_bound; lia).
      lia.
Qed.

Lemma compare_cont_le (m n : positive) :
  Pos.compare_cont Eq m n <> Gt -> (Z.pos m <= Z.pos n).
Proof.
  intros H. exact H.
Qed.

Lemma alpha_fraction_in_range (a : float) :
  (0 <=? a)%float = true -> (a <=? 1)%float = true ->
  exists n, py_round (a * 255)%float = Ok n /\ 0 <= n <= 255.
Proof.
  intros H0 H1. rewrite leb_spec in H0, H1.
  unfold py_round. rewrite mul_spec.
  pose proof (Prim2SF_valid a) as Hvalid.
  change (Prim2SF 255) with (S754_finite false M255 (-45)).
  change (Prim2SF 0) with (S754_zero false) in H0.
  change (Prim2SF 1) with (S754_finite false 4503599627370496 (-52)) in H1.
  destruct (Prim2SF a) as [s | s | | s m e].
  - exists 0. simpl. split; [reflexivity | lia].
  - destruct s; discriminate.
  - discriminate.
  - assert (s = false) as -> by (destruct s; [discriminate | reflexivity]).
    unfold valid_binary, bounded, canonical_mantissa in Hvalid.
    apply andb_true_iff in Hvalid. destruct Hvalid as [Hcanon _].
    apply Z.eqb_eq in Hcanon. unfold fexp, emin, prec, emax in Hcanon.
    pose proof (digits2_pos_bounds m) as [_ Hup].
    assert (Z.pos m < 2 ^ 53) as Hm53.
    { eapply Z.lt_le_trans; [exact Hup|]. apply Z.pow_le_mono_r; lia. }
    unfold SFleb, SFcompare in H1.
    assert (e <= -52 /\ Z.pos m <= 2 ^ (- e)) as [He Hm].
    { destruct (Z.compare_spec e (-52)) as [-> | Hlt | Hgt].
      - split; [lia|]. change (2 ^ (- -52)) with (Z.pos 4503599627370496).
        apply compare_cont_le. intros Hc. rewrite Hc in H1. discriminate.
      - split; [lia|].
        assert (2 ^ 53 <= 2 ^ (- e)) by (apply Z.pow_le_mono_r; lia). lia.
      - discriminate. }
    pose proof (mul_255_bound m e Hm He) as Hmul.
    unfold SF64mul.
    destruct (SFmul prec emax (S754_finite false m e)
                (S754_finite false M255 (-45))) as [s' | s' | | s' m' e'].
    + exists 0. split; [reflexivity | lia].
    + contradiction.
    + contradiction.
    + destruct Hmul as (Hs & Hp & Hn). now apply round_sf_bound.
Qed.

Lemma round_sf_nearest (f : spec_float) (v : Q) :
  sf_value f = Some v ->
  exists n, round_sf f = Ok n /\ (Qabs (inject_Z n - v) <= 1 # 2)%Q.
Proof.
  destruct f as [s | s | | s m e]; simpl; try discriminate.
  - intros [= <-]. exists 0. split; [reflexivity|]. vm_compute. discriminate.
  - intros [= <-]. eexists. split; [reflexivity|].
    destruct (Z.leb_spec 0 e) as [He | He].
    + assert (forall z, (Qabs (inject_Z z - inject_Z z) <= 1 # 2)%Q) as Hz.
      { intros z. unfold Qle, Qabs, Qminus, Qplus, Qopp, inject_Z. simpl.
        replace (z * 1 + - z * 1) with 0 by lia. simpl. lia. }
      destruct s.
      * replace (Z.neg m * 2 ^ e) with (- (Z.pos m * 2 ^ e)) by lia. apply Hz.
      * apply Hz.
    + pose proof (round_half_even_cases (Z.pos m) (- e) ltac:(lia) ltac:(lia))
        as (Hnear & _ & _).
      assert (0 < 2 ^ (- e)) as Hp by (apply Z.pow_pos_nonneg; lia).
      unfold Qle, Qabs, Qminus, Qplus, Qopp, inject_Z.
      cbn [Qnum Qden]. rewrite Z2Pos.id by assumption.
      set (n := round_half_even (Z.pos m) (- e)) in *.
      destruct s.
      * replace (- n * 2 ^ (- e) + - Z.neg m * 1)
          with (- (n * 2 ^ (- e) - Z.pos m)) by lia.
        rewrite Z.abs_opp. lia.
      * replace (n * 2 ^ (- e) + - Z.pos m * 1)
          with (n * 2 ^ (- e) - Z.pos m) by lia.
        lia.
Qed.

Lemma round_sf_has_value (f : spec_float) (n : Z) :
  round_sf f = Ok n -> exists v, sf_value f = Some v.
Proof. destruct f; simpl; try discriminate; eauto. Qed.

End FloatFacts.

(** ** The claims about [wrap_font_text] *)

Import TextWrap TextWrapFacts Draw WrapFacts.

(** C2. Every line [wrap_font_text] emits, except a line that is a
    single chunk whose own measured width is over [max_width], has a
    measured width (the sum of the widths the font gives to its chunks)
    of at most [max_width]; the font measures no chunk as negative. *)
Theorem wrap_width_bound (font : Font) (text : str) (max_width : Z)
    (line : list str) :
  (forall s, 0 <= fst (getsize font s)) ->
  In line (wrap_lines font text max_width) ->
  lone_wide_chunk font max_width line \/ line_width font line <= max_width.
Proof.
  intros Hnonneg Hin.
  pose proof (wrap_lines_ok font max_width Hnonneg text) as Hall.
  rewrite Forall_forall in Hall. exact (Hall line Hin).
Qed.

Lemma wrap_width_bound_witness :
  lone_wide_chunk fixed_pitch 90 [lit "Look,"; lit " "; lit "goof-"; lit "ball"]
  \/ line_width fixed_pitch [lit "Look,"; lit " "; lit "goof-"; lit "ball"]
     <= 90.
Proof.
  apply (wrap_width_bound fixed_pitch text_sentence 90).
  - intros s. unfold fixed_pitch. cbn [getsize fst]. lia.
  - vm_compute. left. reflexivity.
Defined.







(** C5, on the input that shows the defect. With 6 pixels a character
    and a budget of 15, the space after [aa] overflows the line and is
    dropped, but its 6 pixels stay on the account of the new, empty
    line; [bb] then overflows that empty line, which is emitted as a
    blank line. *)
Theorem dropped_space_keeps_its_width :
  wrap_loop fixed_pitch 15 [lit "aa"; lit " "]
  = mkWrap [[lit "aa"]] [] 6
  /\ wrap_lines fixed_pitch text_aa_bb 15 = [[lit "aa"]; []; [lit "bb"]]
  /\ wrap_font_text fixed_pitch text_aa_bb 15
     = lit "aa" ++ [LF; LF] ++ lit "bb".
Proof. repeat split; vm_compute; reflexivity. Qed.

(** C6. A word that is a single chunk without whitespace and wider than
    [max_width] comes back as exactly one line, the word itself: it is
    not split and no line feed is put in. *)
Theorem long_word_alone_on_one_line (font : Font) (word : str)
    (max_width : Z) :
  _split_chunks word = [word] ->
  forallb (fun c => negb (isspace_char c)) word = true ->
  fst (getsize font word) > max_width ->
  wrap_lines font word max_width = [[word]]
  /\ wrap_font_text font word max_width = word
  /\ splitlines (wrap_font_text font word max_width) = [word].
Proof.
  intros Hchunk Hnws Hwide.
  assert (wrap_lines font word max_width = [[word]]) as Hlines.
  { unfold wrap_lines, wrap_loop. rewrite Hchunk. simpl.
    unfold wrap_step. simpl.
    destruct (Z.gtb_spec (fst (getsize font word)) max_width);
      [reflexivity | lia]. }
  assert (wrap_font_text font word max_width = word) as Hout.
  { unfold wrap_font_text. rewrite Hlines. simpl.
    unfold render_line. simpl. rewrite app_nil_r.
    now apply strip_no_whitespace. }
  split; [assumption|]. split; [assumption|].
  rewrite Hout. unfold splitlines.
  assert (forall cur s,
             forallb (fun c => negb (isspace_char c)) s = true ->
             splitlines_aux cur s = [rev cur ++ s]) as Haux.
  { intros cur s. revert cur.
    induction s as [|c s IH]; intros cur H; simpl.
    - now rewrite app_nil_r.
    - simpl in H. apply andb_true_iff in H. destruct H as [Hc Hs].
      destruct (is_char LF c) eqn:Hlf.
      + apply is_char_eq in Hlf. subst c. discriminate.
      + rewrite IH by assumption. simpl. now rewrite <- app_assoc. }
  now rewrite Haux.
Qed.

Lemma long_word_alone_on_one_line_witness :
  wrap_lines fixed_pitch text_long_word 100 = [[text_long_word]]
  /\ wrap_font_text fixed_pitch text_long_word 100 = text_long_word
  /\ splitlines (wrap_font_text fixed_pitch text_long_word 100)
     = [text_long_word].
Proof.
  apply (long_word_alone_on_one_line fixed_pitch text_long_word 100).
  - vm_compute. reflexivity.
  - vm_compute. reflexivity.
  - vm_compute. reflexivity.
Defined.

(** ** The claims about [draw_text_field] and [draw] *)

Lemma Mode_eqb_eq (a b : Mode) : Mode_eqb a b = true <-> a = b.
Proof.
  split; [destruct a, b; simpl; congruence | intros ->; now destruct b].
Qed.

Lemma size_eqb_refl (sz : Z * Z) : size_eqb sz sz = true.
Proof. unfold size_eqb. now rewrite !Z.eqb_refl. Qed.

(** C7 as stated fails: a field whose [max_width] is set to 0 is wrapped
    at the width of the surface less [x], here 100 - 10, and the text
    that comes out is not the one a budget of 0 gives. *)
Lemma zero_max_width_is_not_used :
  wrap (sample_field None (Some 0)) = true
  /\ max_width (sample_field None (Some 0)) = Some 0
  /\ effective_max_width (sample_field None (Some 0)) sample_image = 90
  /\ wrapped_text fixed_pitch text_aa_bb (sample_field None (Some 0))
       sample_image
     <> wrap_font_text fixed_pitch text_aa_bb 0.
Proof. repeat split; try reflexivity. vm_compute. discriminate. Qed.

(** C7, amended. When the wrap flag of the field is set, the text is
    replaced by the output of the wrapper for the effective maximum
    width, which is the [max_width] of the field when it is set and not
    0, and the width of the surface less the [x] of the field when
    [max_width] is unset or 0. *)
Theorem effective_max_width_rule (font : Font) (text : str)
    (field : TextFieldConfig) (im : Image) :
  wrap field = true ->
  wrapped_text font text field im
  = wrap_font_text font text (effective_max_width field im)
  /\ (forall w, max_width field = Some w -> w <> 0 ->
                effective_max_width field im = w)
  /\ (max_width field = None \/ max_width field = Some 0 ->
      effective_max_width field im = width im - x field).
Proof.
  intros Hwrap. unfold wrapped_text, effective_max_width. rewrite Hwrap.
  split; [reflexivity|]. split.
  - intros w -> Hw. destruct (Z.eqb_spec w 0); [contradiction | reflexivity].
  - intros [-> | ->]; reflexivity.
Qed.

Lemma effective_max_width_rule_witness :
  effective_max_width (sample_field None (Some 30)) sample_image = 30.
Proof.
  refine (proj1 (proj2 (effective_max_width_rule fixed_pitch text_aa_bb
                          (sample_field None (Some 30)) sample_image _))
            30 _ _).
  - reflexivity.
  - reflexivity.
  - discriminate.
Defined.

(** On an opaque destination the stand-in compositor gives every colour
    as [(src * a + dst * (255 - a)) / 255]. *)
Lemma sample_over_opaque (sr sg sb sa dr dg db : Z) :
  0 < sa <= 255 ->
  sample_over (sr, sg, sb, sa) (dr, dg, db, 255)
  = ((sr * sa + dr * (255 - sa)) / 255,
     (sg * sa + dg * (255 - sa)) / 255,
     (sb * sa + db * (255 - sa)) / 255,
     255).
Proof.
  intros Hsa. unfold sample_over. cbn [snd].
  destruct (Z.eqb_spec sa 0) as [|_]; [lia|].
  replace (sa * 255 + 255 * (255 - sa)) with (255 * 255) by lia.
  assert (forall s d,
             (s * (sa * 255) + d * (255 * (255 - sa))) / (255 * 255)
             = (s * sa + d * (255 - sa)) / 255) as Hc.
  { intros s d.
    replace (s * (sa * 255) + d * (255 * (255 - sa)))
      with (255 * (s * sa + d * (255 - sa))) by lia.
    apply Z.div_mul_cancel_l; lia. }
  now rewrite !Hc.
Qed.

(** The stand-in compositor does alpha compositing. *)
Lemma sample_over_composites : alpha_composites sample_over.
Proof.
  intros [[[sr sg] sb] sa] [[[dr dg] db] da] Hsrc Hdst Hsa.
  unfold alpha_of in Hsa. cbn [snd] in Hsa.
  destruct Hsrc as (_ & _ & _ & Hsa255). destruct Hdst as (_ & _ & _ & Hda).
  unfold byte in *.
  unfold sample_over. cbn [snd].
  destruct (Z.eqb_spec sa 0) as [|_]; [lia|].
  assert (0 < sa * 255 + da * (255 - sa)) as Htotal by nia.
  set (total := sa * 255 + da * (255 - sa)) in *.
  assert (forall s d,
             weighted_mean s d (255 * sa) (da * (255 - sa))
               ((s * (sa * 255) + d * (da * (255 - sa))) / total)) as Hmean.
  { intros s d. unfold weighted_mean.
    replace (255 * sa + da * (255 - sa)) with total by (unfold total; lia).
    replace (s * (255 * sa) + d * (da * (255 - sa)))
      with (s * (sa * 255) + d * (da * (255 - sa))) by lia.
    set (n := s * (sa * 255) + d * (da * (255 - sa))).
    pose proof (Z.div_mod n total ltac:(lia)) as Hdm.
    pose proof (Z.mod_pos_bound n total Htotal) as Hr.
    lia. }
  unfold source_over. repeat split; try apply Hmean.
  replace (255 * sa + da * (255 - sa)) with total by (unfold total; lia).
  pose proof (Z.div_mod total 255 ltac:(lia)) as Hdm.
  pose proof (Z.mod_pos_bound total 255 ltac:(lia)) as Hr.
  lia.
Qed.

(** Over an opaque pixel, source-over is the blend of each colour by
    the alpha of the source, and the result is opaque. *)
Lemma source_over_opaque (sr sg sb sa dr dg db r g b a : Z) :
  source_over (sr, sg, sb, sa) (dr, dg, db, 255) (r, g, b, a) ->
  blends_to sr dr sa r /\ blends_to sg dg sa g /\ blends_to sb db sa b
  /\ a = 255.
Proof.
  unfold source_over, weighted_mean, blends_to.
  intros (Hr & Hg & Hb & Ha).
  assert (forall s d out,
             Z.abs (out * (255 * sa + 255 * (255 - sa))
                    - (s * (255 * sa) + d * (255 * (255 - sa))))
             < 255 * sa + 255 * (255 - sa) ->
             Z.abs (255 * out - (s * sa + d * (255 - sa))) < 255) as Hc.
  { intros s d out H.
    replace (out * (255 * sa + 255 * (255 - sa))
             - (s * (255 * sa) + d * (255 * (255 - sa))))
      with (255 * (255 * out - (s * sa + d * (255 - sa)))) in H by ring.
    rewrite Z.abs_mul in H. change (Z.abs 255) with 255 in H. lia. }
  repeat split; [now apply Hc | now apply Hc | now apply Hc | lia].
Qed.

(** Over a fully transparent pixel the source comes out as it is. *)
Lemma source_over_transparent (sr sg sb sa dr dg db r g b a : Z) :
  0 < sa ->
  source_over (sr, sg, sb, sa) (dr, dg, db, 0) (r, g, b, a) ->
  (r, g, b, a) = (sr, sg, sb, sa).
Proof.
  unfold source_over, weighted_mean. intros Hsa (Hr & Hg & Hb & Ha).
  assert (forall s d o,
             Z.abs (o * (255 * sa + 0 * (255 - sa))
                    - (s * (255 * sa) + d * (0 * (255 - sa))))
             < 255 * sa + 0 * (255 - sa) -> o = s) as Hsame.
  { intros s d o H.
    replace (o * (255 * sa + 0 * (255 - sa))
             - (s * (255 * sa) + d * (0 * (255 - sa))))
      with ((o - s) * (255 * sa)) in H by ring.
    replace (255 * sa + 0 * (255 - sa)) with (255 * sa) in H by ring.
    destruct (Z.eq_dec o s) as [Heq | Hne]; [assumption|].
    exfalso. rewrite Z.abs_mul in H.
    rewrite (Z.abs_eq (255 * sa)) in H by lia.
    assert (1 <= Z.abs (o - s)) as Hone by lia. nia. }
  rewrite (Hsame _ _ _ Hr), (Hsame _ _ _ Hg), (Hsame _ _ _ Hb).
  assert (a = sa) as -> by lia. reflexivity.
Qed.

Section DrawFacts.

Context {env : Env}.

Lemma bind_ok {A B : Type} (c : M A) (k : A -> M B) (im im' : Image) (a : A) :
  c im = (Ok a, im') -> bind c k im = k a im'.
Proof. unfold bind. now intros ->. Qed.

Lemma bind_raise {A B : Type} (c : M A) (k : A -> M B) (im im' : Image)
    (e : exception) :
  c im = (Raise e, im') -> bind c k im = (Raise e, im').
Proof. unfold bind. now intros ->. Qed.

(** C1. When a background colour is configured and every step succeeds
    (the surface is RGBA, the font loads, the text is measured, the
    colours convert, the padded box has its corners in order), the
    rectangle is drawn on a fully transparent RGBA overlay of the size of
    the surface, not on the surface; the overlay is composited onto the
    surface as a whole; and the text is then inked straight onto the
    surface. With a compositing operator that does alpha compositing,
    as the one of Pillow does, the pixels outside the rectangle stay as
    they were, and every pixel inside is the background colour over the
    pixel of the surface: with each colour weighed by the alpha of its
    pixel, [out = src * alpha + dst * (1 - alpha)], to the rounding of
    the channel. Where the surface is opaque this is the formula on the
    channels as they are stored, and the pixel stays opaque; where the
    surface is fully transparent the pixel becomes the background
    colour, alpha included. *)
Theorem background_goes_through_overlay (text : str)
    (field : TextFieldConfig) (im : Image) (c : Color) (font : Font)
    (b : Box) (fill_bg fill_fg : PILColorTuple) (sr sg sb sa : Z) :
  bg field = Some c ->
  mode im = mode_RGBA ->
  load_font field = Ok font ->
  textbbox font (x field, y field) (wrapped_text font text field im) = Ok b ->
  to_pil_color c = Ok fill_bg ->
  to_pil_color (fg field) = Ok fill_fg ->
  well_formed (expand b (padding field)) ->
  ink fill_bg = (sr, sg, sb, sa) ->
  byte_pixel (sr, sg, sb, sa) ->
  0 < sa ->
  alpha_composites over ->
  let overlay :=
    rectangle (new mode_RGBA (size im) (0, 0, 0, 0))
      (expand b (padding field)) fill_bg in
  exists im1 im2,
    alpha_composite over im overlay = Ok im1
    /\ (forall i j,
          px overlay i j
          = if in_box (expand b (padding field)) i j
            then ink fill_bg else (0, 0, 0, 0))
    /\ (forall i j, px im1 i j = over (px overlay i j) (px im i j))
    /\ (forall i j,
          in_box (expand b (padding field)) i j = false ->
          px im1 i j = px im i j)
    /\ (forall i j,
          in_box (expand b (padding field)) i j = true ->
          byte_pixel (px im i j) ->
          source_over (sr, sg, sb, sa) (px im i j) (px im1 i j))
    /\ (forall i j dr dg db,
          in_box (expand b (padding field)) i j = true ->
          px im i j = (dr, dg, db, 255) ->
          byte dr -> byte dg -> byte db ->
          exists r g b',
            px im1 i j = (r, g, b', 255)
            /\ blends_to sr dr sa r
            /\ blends_to sg dg sa g
            /\ blends_to sb db sa b')
    /\ (forall i j dr dg db,
          in_box (expand b (padding field)) i j = true ->
          px im i j = (dr, dg, db, 0) ->
          byte dr -> byte dg -> byte db ->
          px im1 i j = (sr, sg, sb, sa))
    /\ draw_text_field text field im = (Ok tt, im2)
    /\ mode im2 = mode_RGBA
    /\ size im2 = size im
    /\ (forall i j,
          px im2 i j
          = text_ink font false (x field, y field)
              (wrapped_text font text field im) fill_fg i j (px im1 i j)).
Proof.
  intros Hbg Hmode Hfont Hbox Hcbg Hcfg _ Hink Hsrc Hsa Hover overlay.
  assert (alpha_composite over im overlay
          = Ok (mkImage (mode im) (size im)
                  (fun i j => over (px overlay i j) (px im i j)))) as Hcomp.
  { unfold alpha_composite. rewrite Hmode. simpl.
    now rewrite size_eqb_refl. }
  assert (forall i j,
             in_box (expand b (padding field)) i j = true ->
             byte_pixel (px im i j) ->
             source_over (sr, sg, sb, sa) (px im i j)
               (over (px overlay i j) (px im i j))) as Hinside.
  { intros i j Hin Hdst.
    replace (px overlay i j) with (sr, sg, sb, sa)
      by (simpl; now rewrite Hin, Hink).
    exact (Hover (sr, sg, sb, sa) (px im i j) Hsrc Hdst Hsa). }
  eexists. eexists.
  split; [exact Hcomp|].
  split; [reflexivity|].
  split; [reflexivity|].
  split.
  { intros i j Hout. simpl. rewrite Hout. apply over_transparent. }
  split; [exact Hinside|].
  split.
  { intros i j dr dg db Hin Hpx Hdr Hdg Hdb.
    assert (byte_pixel (px im i j)) as Hdst
      by (rewrite Hpx; unfold byte_pixel, byte in *; lia).
    specialize (Hinside i j Hin Hdst). rewrite Hpx in Hinside.
    cbn [px].
    replace (px im i j) with (dr, dg, db, 255).
    destruct (over (px overlay i j) (dr, dg, db, 255)) as [[[r g] b'] a].
    apply source_over_opaque in Hinside.
    destruct Hinside as (Hr & Hg & Hb & ->).
    now exists r, g, b'. }
  split.
  { intros i j dr dg db Hin Hpx Hdr Hdg Hdb.
    assert (byte_pixel (px im i j)) as Hdst
      by (rewrite Hpx; unfold byte_pixel, byte in *; lia).
    specialize (Hinside i j Hin Hdst). rewrite Hpx in Hinside.
    cbn [px].
    replace (px im i j) with (dr, dg, db, 0).
    destruct (over (px overlay i j) (dr, dg, db, 0)) as [[[r g] b'] a].
    now apply source_over_transparent with (dr := dr) (dg := dg) (db := db). }
  split.
  - unfold draw_text_field, draw_background, bind, lift, get_image,
      put_image, ret, draw_text.
    rewrite Hfont, Hbg. unfold ImageDraw_Draw at 1. rewrite Hmode. simpl.
    rewrite Hbox, Hcbg. fold overlay. rewrite Hcomp, Hcfg. reflexivity.
  - simpl. auto.
Qed.

(** The steps of a field whose exceptions [draw_field] passes on as they
    are, with the surface as it was. *)
Lemma field_value_error (fm : Frontmatter) (field : TextFieldConfig)
    (im : Image) (e : exception) :
  field_value fm field = Raise e -> draw_field fm field im = (Raise e, im).
Proof. intros H. unfold draw_field, bind, lift. now rewrite H. Qed.

Lemma load_font_error (text : str) (field : TextFieldConfig) (im : Image)
    (e : exception) :
  load_font field = Raise e -> draw_text_field text field im = (Raise e, im).
Proof. intros H. unfold draw_text_field, bind, lift. now rewrite H. Qed.

(** The steps of [draw_text_field] pass their exceptions on: when the
    steps before it go well and a step raises, the function raises the
    same exception, with the surface as that step found it. *)
Lemma raises_in_text_field_propagates (text : str) (field : TextFieldConfig)
    (im im' : Image) (e : exception) :
  raises_in_text_field text field im e im' ->
  draw_text_field text field im = (Raise e, im').
Proof.
  intros Hraise.
  unfold draw_text_field, draw_background, draw_text, bind, lift,
    get_image, put_image, ret.
  destruct Hraise
    as [e Hfont
       | font e Hfont Hctx
       | font d c e Hfont Hctx Hbg Hbox
       | font d c b e Hfont Hctx Hbg Hbox Hcol
       | font d c b fill e Hfont Hctx Hbg Hbox Hcol Hcomp
       | font d e Hfont Hctx Hbg Hfg
       | font d c b fill im1 e Hfont Hctx Hbg Hbox Hcol Hcomp Hfg];
    rewrite Hfont; try rewrite Hctx; try rewrite Hbg; try reflexivity.
  - now rewrite Hbox.
  - now rewrite Hbox, Hcol.
  - rewrite Hbox. simpl. now rewrite Hcol, Hcomp.
  - now rewrite Hfg.
  - rewrite Hbox. simpl. now rewrite Hcol, Hcomp, Hfg.
Qed.

(** And it raises nothing of its own: an exception of [draw_text_field]
    is the exception of one of its steps. *)
Lemma raises_in_text_field_complete (text : str) (field : TextFieldConfig)
    (im im' : Image) (e : exception) :
  draw_text_field text field im = (Raise e, im') ->
  raises_in_text_field text field im e im'.
Proof.
  unfold draw_text_field, draw_background, draw_text, bind, lift,
    get_image, put_image, ret.
  destruct (load_font field) as [font|e1] eqn:Hfont.
  2:{ intros [= <- <-]. now apply raises_font. }
  destruct (ImageDraw_Draw im (Some mode_RGBA)) as [d|e1] eqn:Hctx.
  2:{ intros [= <- <-]. now apply raises_context with (font := font). }
  destruct (bg field) as [c|] eqn:Hbg.
  - destruct (textbbox font (x field, y field)
                (wrapped_text font text field im)) as [b|e1] eqn:Hbox.
    2:{ intros [= <- <-].
        now apply raises_textbbox with (font := font) (d := d) (c := c). }
    simpl.
    destruct (to_pil_color c) as [fill|e1] eqn:Hcol.
    2:{ intros [= <- <-].
        now apply raises_bg_color
          with (font := font) (d := d) (c := c) (b := b). }
    destruct (alpha_composite over im _) as [im1|e1] eqn:Hcomp.
    2:{ intros [= <- <-].
        now apply raises_composite
          with (font := font) (d := d) (c := c) (b := b) (fill := fill). }
    destruct (to_pil_color (fg field)) as [fillfg|e1] eqn:Hfg;
      [discriminate|].
    intros [= <- <-].
    now apply raises_fg_color_on_bg
      with (font := font) (d := d) (c := c) (b := b) (fill := fill).
  - destruct (to_pil_color (fg field)) as [fillfg|e1] eqn:Hfg;
      [discriminate|].
    intros [= <- <-].
    now apply raises_fg_color with (font := font) (d := d).
Qed.

Lemma raises_in_field_propagates (fm : Frontmatter) (field : TextFieldConfig)
    (im im' : Image) (e : exception) :
  raises_in_field fm field im e im' ->
  draw_field fm field im = (Raise e, im').
Proof.
  intros [keys e1 Hsrc Hcall
         | key e1 Hsrc Hcall
         | key value c f e1 Hsrc Hcall Hfmt Hcall'
         | value e1 im1 Hvalue Hdraw].
  - apply field_value_error.
    unfold field_value. rewrite Hsrc. exact Hcall.
  - apply field_value_error.
    unfold field_value. rewrite Hsrc.
    change (match get_frontmatter_value fm key (field_default field key)
                    (optional field) (field_parser field) with
            | Raise e => Raise e
            | Ok value =>
                match format field with
                | Some (c :: f) => str_format (c :: f) value key
                | _ => Ok value
                end
            end = Raise e1).
    now rewrite Hcall.
  - apply field_value_error.
    unfold field_value. rewrite Hsrc.
    change (match get_frontmatter_value fm key (field_default field key)
                    (optional field) (field_parser field) with
            | Raise e => Raise e
            | Ok value =>
                match format field with
                | Some (c :: f) => str_format (c :: f) value key
                | _ => Ok value
                end
            end = Raise e1).
    now rewrite Hcall, Hfmt.
  - unfold draw_field, bind, lift. rewrite Hvalue.
    now apply raises_in_text_field_propagates.
Qed.

(** An exception of one turn of the loop is the exception of one of
    these steps. *)
Lemma raises_in_field_complete (fm : Frontmatter) (field : TextFieldConfig)
    (im im' : Image) (e : exception) :
  draw_field fm field im = (Raise e, im') ->
  raises_in_field fm field im e im'.
Proof.
  unfold draw_field, bind, lift.
  destruct (field_value fm field) as [value|e1] eqn:Hvalue.
  - intros Hdraw. apply raises_drawing with (value := value); [assumption|].
    now apply raises_in_text_field_complete.
  - intros [= <- <-]. unfold field_value in Hvalue.
    destruct (source field) as [key|keys] eqn:Hsrc.
    + change (match get_frontmatter_value fm key (field_default field key)
                      (optional field) (field_parser field) with
              | Raise e => Raise e
              | Ok value =>
                  match format field with
                  | Some (c :: f) => str_format (c :: f) value key
                  | _ => Ok value
                  end
              end = Raise e1) in Hvalue.
      destruct (get_frontmatter_value fm key (field_default field key)
                  (optional field) (field_parser field))
        as [value|e2] eqn:Hcall.
      * destruct (format field) as [[|c f]|] eqn:Hfmt; try discriminate.
        now apply raises_format
          with (key := key) (value := value) (c := c) (f := f).
      * injection Hvalue as <-.
        now apply raises_lookup with (key := key).
    + now apply raises_formatted with (keys := keys).
Qed.

(** C9. No exception raised while a field is rendered is caught or
    retried. When the fields before a field render and a step of that
    field raises (its value cannot be had, the font does not load, the
    drawing context is refused, the text cannot be measured, a colour
    does not convert, the compositing fails), the turn of the loop and
    [draw] raise the same exception, and the surface is then as the
    failing step left it: no later field is rendered. The same holds of
    [draw_text_field] called on its own. *)
Theorem draw_fails_fast (fm : Frontmatter) (cnf : CardGenConfig)
    (before after : list TextFieldConfig) (field : TextFieldConfig)
    (im0 im1 im2 : Image) (e : exception) :
  text_fields cnf = before ++ field :: after ->
  Image_open (template cnf) = Ok im0 ->
  draw_fields fm before im0 = (Ok tt, im1) ->
  raises_in_field fm field im1 e im2 ->
  draw_field fm field im1 = (Raise e, im2)
  /\ draw fm cnf = Raise e
  /\ draw_fields fm (text_fields cnf) im0 = (Raise e, im2)
  /\ draw_fields fm (before ++ [field]) im0 = (Raise e, im2)
  /\ (forall text e' im',
        raises_in_text_field text field im1 e' im' ->
        draw_text_field text field im1 = (Raise e', im')).
Proof.
  intros Hfields Hopen Hbefore Hraise.
  pose proof (raises_in_field_propagates fm field im1 im2 e Hraise)
    as Hfield.
  assert (forall rest, draw_fields fm (before ++ field :: rest) im0
                       = (Raise e, im2)) as Hrun.
  { intros rest. clear Hfields Hopen Hraise. revert im0 Hbefore.
    induction before as [|f before' IH]; intros im0 Hbefore.
    - simpl in Hbefore. injection Hbefore as <-.
      simpl. now apply bind_raise.
    - simpl in *. unfold bind in *.
      destruct (draw_field fm f im0) as [[[]|e'] im'] eqn:Hf.
      + now apply IH.
      + discriminate. }
  split; [assumption|].
  unfold draw. rewrite Hopen, Hfields, !Hrun.
  repeat split; try reflexivity.
  intros text e' im'. apply raises_in_text_field_propagates.
Qed.

(** C10, amended. With a background colour set and a font that loads, a
    surface that is not RGBA never gets the background. On an opaque RGB
    surface the exception is raised by the alpha compositing, once the
    text is measured and the colour converted; on any other mode it is
    raised before, when the RGBA drawing context is made. The surface
    is left as it was in both cases. *)
Theorem background_needs_rgba_surface (text : str) (field : TextFieldConfig)
    (im : Image) (c : Color) (font : Font) :
  bg field = Some c ->
  load_font field = Ok font ->
  mode im <> mode_RGBA ->
  (mode im = mode_RGB ->
   forall b fill,
     textbbox font (x field, y field) (wrapped_text font text field im)
     = Ok b ->
     to_pil_color c = Ok fill ->
     alpha_composite over im
       (rectangle (new mode_RGBA (size im) (0, 0, 0, 0))
          (expand b (padding field)) fill)
     = Raise (ValueError "image has wrong mode")
     /\ draw_text_field text field im
        = (Raise (ValueError "image has wrong mode"), im))
  /\ (mode im <> mode_RGB ->
      ImageDraw_Draw im (Some mode_RGBA) = Raise (ValueError "mode mismatch")
      /\ draw_text_field text field im
         = (Raise (ValueError "mode mismatch"), im)).
Proof.
  intros Hbg Hfont Hmode. split.
  - intros Hrgb b fill Hbox Hfill.
    assert (alpha_composite over im
              (rectangle (new mode_RGBA (size im) (0, 0, 0, 0))
                 (expand b (padding field)) fill)
            = Raise (ValueError "image has wrong mode")) as Hcomp
      by (unfold alpha_composite; now rewrite Hrgb).
    split; [assumption|].
    unfold draw_text_field, draw_background, bind, lift, get_image.
    rewrite Hfont, Hbg. unfold ImageDraw_Draw at 1. rewrite Hrgb. simpl.
    rewrite Hbox, Hfill, Hcomp. reflexivity.
  - intros Hrgb.
    assert (ImageDraw_Draw im (Some mode_RGBA)
            = Raise (ValueError "mode mismatch")) as Hdraw
      by (unfold ImageDraw_Draw; destruct (mode im); simpl; congruence).
    split; [assumption|].
    unfold draw_text_field, bind, lift, get_image.
    now rewrite Hfont, Hdraw.
Qed.

End DrawFacts.

Lemma background_goes_through_overlay_witness :
  exists im2,
    draw_text_field (env := sample_env) text_aa_bb
      (sample_field (Some translucent_red) None) sample_white_image
    = (Ok tt, im2)
    /\ px im2 9 20 = (255, 255, 255, 255)
    /\ px im2 10 20 = (0, 0, 0, 255)
    /\ px im2 40 31 = (255, 153, 153, 255)
    /\ px im2 40 31 <> (255, 0, 0, 102).
Proof.
  destruct (background_goes_through_overlay (env := sample_env) text_aa_bb
              (sample_field (Some translucent_red) None) sample_white_image
              translucent_red fixed_pitch (10, 20, 40, 31)
              (Tuple4 255 0 0 102) (Tuple3 0 0 0) 255 0 0 102)
    as (im1 & im2 & _ & _ & Hpx1 & Hout & _ & Hblend & _ & Hrun & _ & _
        & Hpx2);
    try reflexivity.
  - simpl. lia.
  - unfold byte_pixel, byte. lia.
  - exact sample_over_composites.
  - destruct (Hblend 40 31 255 255 255)
      as (r & g & b & Hpx & Hr & Hg & Hb);
      try reflexivity; try (unfold byte; lia).
    unfold blends_to in Hr, Hg, Hb.
    assert (r = 255) as -> by lia.
    assert (g = 153) as -> by lia.
    assert (b = 153) as -> by lia.
    exists im2. split; [exact Hrun|].
    rewrite !Hpx2, Hpx, (Hout 9 20), Hpx1 by reflexivity.
    repeat split; try reflexivity. discriminate.
Defined.

Lemma draw_fails_fast_witness :
  draw (env := sample_env) sample_fm nan_cnf
  = Raise (ValueError "cannot convert float NaN to integer").
Proof.
  refine (proj1 (proj2 (draw_fails_fast (env := sample_env) sample_fm nan_cnf
                   [sample_field None None] [sample_field None None]
                   (sample_field (Some nan_color) None) sample_image
                   (snd (draw_fields (env := sample_env) sample_fm
                           [sample_field None None] sample_image))
                   (snd (draw_fields (env := sample_env) sample_fm
                           [sample_field None None] sample_image))
                   (ValueError "cannot convert float NaN to integer")
                   _ _ _ _))).
  - reflexivity.
  - reflexivity.
  - reflexivity.
  - eapply raises_drawing; [reflexivity|].
    eapply raises_bg_color; reflexivity.
Defined.

(** The same with a font file that cannot be opened: the error of the
    loader is the error of [draw]. *)
Example unreadable_font_stops_the_card :
  draw (env := sample_env) sample_fm sample_cnf
  = Raise (OSError "cannot open resource").
Proof. reflexivity. Qed.

(** C10 as stated fails: a greyscale surface has no alpha band, and with
    a background colour set the exception it gets is the one of the
    drawing context, which the alpha compositing never raises. *)
Lemma grey_surface_fails_before_compositing :
  has_alpha (mode sample_grey_image) = false
  /\ draw_text_field (env := sample_env) text_aa_bb
       (sample_field (Some translucent_red) None) sample_grey_image
     = (Raise (ValueError "mode mismatch"), sample_grey_image)
  /\ ImageDraw_Draw sample_grey_image (Some mode_RGBA)
     = Raise (ValueError "mode mismatch")
  /\ (forall blend dst src,
        alpha_composite blend dst src <> Raise (ValueError "mode mismatch")).
Proof.
  repeat split; try reflexivity.
  intros blend dst src. unfold alpha_composite.
  destruct (negb _); [discriminate|]. destruct (negb _); discriminate.
Qed.

Lemma background_needs_rgba_surface_witness :
  draw_text_field (env := sample_env) text_aa_bb
    (sample_field (Some translucent_red) None) sample_rgb_image
  = (Raise (ValueError "image has wrong mode"), sample_rgb_image).
Proof.
  refine (proj2 (proj1 (background_needs_rgba_surface (env := sample_env)
                          text_aa_bb
                          (sample_field (Some translucent_red) None)
                          sample_rgb_image translucent_red fixed_pitch _ _ _)
                   _ (10, 20, 40, 31) (Tuple4 255 0 0 102) _ _)).
  - reflexivity.
  - reflexivity.
  - discriminate.
  - reflexivity.
  - reflexivity.
  - reflexivity.
Defined.

(** ** The claim about [to_pil_color] *)

(** C8. A 3-channel colour comes back as it is. A 4-channel colour
    whose alpha is a fraction between 0 and 1 keeps its three colours,
    and its alpha becomes the integer nearest to the fraction times 255
    (as the float product gives it): within one half of it, so rounded
    and not truncated, and between 0 and 255. Red stays (255, 0, 0), red
    with alpha 0.4 becomes (255, 0, 0, 102), and the alpha 0.5, whose
    product 127.5 truncates to 127, becomes 128. *)
Theorem to_pil_color_rounds_alpha :
  (forall r g b, to_pil_color (mkColor (rgb3 r g b)) = Ok (Tuple3 r g b))
  /\ (forall r g b a,
        (0 <=? a)%float = true ->
        (a <=? 1)%float = true ->
        exists n v,
          to_pil_color (mkColor (rgb4 r g b a)) = Ok (Tuple4 r g b n)
          /\ float_value (a * 255)%float = Some v
          /\ (Qabs (inject_Z n - v) <= 1 # 2)%Q
          /\ 0 <= n <= 255)
  /\ to_pil_color (mkColor (rgb3 255 0 0)) = Ok (Tuple3 255 0 0)
  /\ to_pil_color translucent_red = Ok (Tuple4 255 0 0 102)
  /\ to_pil_color (mkColor (rgb4 0 0 0 0.5%float)) = Ok (Tuple4 0 0 0 128).
Proof.
  split; [reflexivity|]. split; [|repeat split; reflexivity].
  intros r g b a H0 H1.
  destruct (FloatFacts.alpha_fraction_in_range a H0 H1) as (n & Hn & Hrange).
  destruct (FloatFacts.round_sf_has_value _ _ Hn) as [v Hv].
  destruct (FloatFacts.round_sf_nearest _ _ Hv) as (n' & Hn' & Hnear).
  assert (n' = n) as -> by (unfold py_round in Hn; congruence).
  exists n, v. unfold to_pil_color. simpl. rewrite Hn. auto.
Qed.

Lemma to_pil_color_rounds_alpha_witness :
  exists n v,
    to_pil_color (mkColor (rgb4 0 0 0 0.5%float)) = Ok (Tuple4 0 0 0 n)
    /\ float_value (0.5 * 255)%float = Some v
    /\ (Qabs (inject_Z n - v) <= 1 # 2)%Q
    /\ 0 <= n <= 255.
Proof.
  apply (proj1 (proj2 to_pil_color_rounds_alpha)); reflexivity.
Defined.

(** * Further properties *)

(** ** More on [wrap_font_text] *)

Module WrapMore.

Import TextWrap TextWrapFacts Draw WrapFacts.

Lemma line_width_nonneg (font : Font) (line : list str) :
  (forall s, 0 <= fst (getsize font s)) -> 0 <= line_width font line.
Proof.
  intros Hnonneg. unfold line_width.
  induction line as [|c line IH]; simpl; [lia|].
  specialize (Hnonneg c). lia.
Qed.

Lemma line_width_cons (font : Font) (c : str) (line : list str) :
  line_width font (c :: line)
  = fst (getsize font c) + line_width font line.
Proof. reflexivity. Qed.

(** While the chunks left fit beside what is on account, the loop only
    appends. *)
Lemma wrap_loop_fits (font : Font) (max_width : Z) (chunks : list str) :
  (forall s, 0 <= fst (getsize font s)) ->
  forall st,
    cur_line_width st + line_width font chunks <= max_width ->
    fold_left (wrap_step font max_width) chunks st
    = mkWrap (lines st) (cur_line st ++ chunks)
        (cur_line_width st + line_width font chunks).
Proof.
  intros Hnonneg.
  induction chunks as [|c chunks IH]; intros st Hfit.
  - destruct st. simpl. rewrite app_nil_r. f_equal.
    unfold line_width. simpl. lia.
  - rewrite line_width_cons in Hfit.
    pose proof (line_width_nonneg font chunks Hnonneg) as Hrest.
    simpl fold_left. unfold wrap_step at 2.
    destruct (Z.gtb_spec (cur_line_width st + fst (getsize font c)) max_width)
      as [Hover | _]; [lia|].
    rewrite IH by (simpl; lia). simpl.
    rewrite <- app_assoc, line_width_cons. f_equal. lia.
Qed.

(** X1. A text whose chunks fit together in the budget is not broken:
    the output is the whitespace-normalised text, stripped, in one
    line. *)
Theorem text_that_fits_stays_on_one_line (font : Font) (text : str)
    (max_width : Z) :
  (forall s, 0 <= fst (getsize font s)) ->
  line_width font (_split_chunks text) <= max_width ->
  wrap_font_text font text max_width = strip (_munge_whitespace text)
  /\ (forall line,
        In line (wrap_lines font text max_width) ->
        line = _split_chunks text).
Proof.
  intros Hnonneg Hfit.
  assert (wrap_loop font max_width (_split_chunks text)
          = mkWrap [] (_split_chunks text)
              (line_width font (_split_chunks text))) as Hloop.
  { unfold wrap_loop. rewrite wrap_loop_fits by (simpl; auto). reflexivity. }
  assert (concat (_split_chunks text) = _munge_whitespace text) as Hcat
    by (apply split_from_concat; lia).
  unfold wrap_font_text, wrap_lines. rewrite Hloop. simpl.
  destruct (_split_chunks text) as [|c chunks] eqn:Hchunks.
  - simpl in *. rewrite <- Hcat. split; [reflexivity | intros line []].
  - split.
    + simpl. unfold render_line. now rewrite Hcat.
    + intros line [<- | []]. reflexivity.
Qed.

Lemma text_that_fits_stays_on_one_line_witness :
  wrap_font_text fixed_pitch text_aa_bb 30
  = strip (_munge_whitespace text_aa_bb).
Proof.
  apply (text_that_fits_stays_on_one_line fixed_pitch text_aa_bb 30).
  - intros s. unfold fixed_pitch. cbn [getsize fst]. lia.
  - vm_compute. discriminate.
Defined.

(** With a negative budget the width on account never leaves 0, and
    every chunk is closed as a line of its own. *)
Lemma wrap_loop_negative (font : Font) (max_width : Z) (chunks : list str) :
  (forall s, 0 <= fst (getsize font s)) ->
  max_width < 0 ->
  forall closed,
    fold_left (wrap_step font max_width) chunks (mkWrap closed [] 0)
    = mkWrap (closed ++ map (fun c => [c]) chunks) [] 0.
Proof.
  intros Hnonneg Hneg.
  induction chunks as [|c chunks IH]; intros closed.
  - simpl. now rewrite app_nil_r.
  - simpl fold_left. unfold wrap_step at 2. cbn [cur_line_width lines].
    pose proof (Hnonneg c) as Hc.
    destruct (Z.gtb_spec (0 + fst (getsize font c)) max_width)
      as [_ | Hfit]; [|lia].
    simpl. rewrite IH. now rewrite <- app_assoc.
Qed.

(** X2. With a negative budget, as when the field starts to the right of
    the surface, every chunk is a line of its own, the runs of spaces
    too, which come out as empty rows. *)
Theorem negative_budget_gives_one_chunk_per_line (font : Font) (text : str)
    (max_width : Z) :
  (forall s, 0 <= fst (getsize font s)) ->
  max_width < 0 ->
  wrap_lines font text max_width = map (fun c => [c]) (_split_chunks text)
  /\ wrap_font_text font text max_width
     = join [LF] (map strip (_split_chunks text)).
Proof.
  intros Hnonneg Hneg.
  assert (wrap_lines font text max_width
          = map (fun c => [c]) (_split_chunks text)) as Hlines.
  { unfold wrap_lines, wrap_loop, wrap_init.
    now rewrite wrap_loop_negative. }
  split; [assumption|].
  unfold wrap_font_text. rewrite Hlines, map_map. f_equal.
  apply map_ext. intros c. unfold render_line. simpl. now rewrite app_nil_r.
Qed.

Lemma negative_budget_gives_one_chunk_per_line_witness :
  wrap_font_text fixed_pitch text_aa_bb (-5)
  = join [LF] (map strip (_split_chunks text_aa_bb)).
Proof.
  apply (negative_budget_gives_one_chunk_per_line fixed_pitch text_aa_bb (-5)).
  - intros s. unfold fixed_pitch. cbn [getsize fst]. lia.
  - lia.
Defined.

(** *** No word is lost *)

Lemma words_inv_step (font : Font) (max_width : Z) (seen : list str)
    (st : wrap_state) (chunk : str) :
  0 < fst (getsize font chunk) ->
  words_inv seen st ->
  words_inv (seen ++ [chunk]) (wrap_step font max_width st chunk).
Proof.
  intros Hw (Hwords & Hacc & Hempty).
  unfold wrap_step.
  destruct (_ >? _).
  - destruct (Z.eqb_spec (cur_line_width st) 0) as [Hz | Hnz].
    + rewrite (Hempty Hz), app_nil_r in Hwords.
      split; [|split]; simpl; [|lia|reflexivity].
      now rewrite concat_app, app_nil_r, !filter_app, Hwords.
    + assert (filter is_word (if isspace chunk then [] else [chunk])
              = filter is_word [chunk]) as Hc
        by (unfold is_word; destruct (isspace chunk) eqn:Hsp; simpl;
            rewrite ?Hsp; reflexivity).
      split; [|split]; simpl; [|lia|lia].
      rewrite concat_app. simpl concat. rewrite app_nil_r.
      now rewrite filter_app, Hc, Hwords, <- filter_app.
  - split; [|split]; simpl; [|lia|lia].
    rewrite app_assoc, (filter_app _ _ [chunk]), Hwords.
    now rewrite filter_app.
Qed.

Lemma words_inv_loop (font : Font) (max_width : Z) (chunks : list str) :
  Forall (fun c => 0 < fst (getsize font c)) chunks ->
  forall seen st,
    words_inv seen st ->
    words_inv (seen ++ chunks)
      (fold_left (wrap_step font max_width) chunks st).
Proof.
  induction chunks as [|c chunks IH]; intros Hpos seen st Hinv.
  - now rewrite app_nil_r.
  - simpl. replace (seen ++ c :: chunks) with ((seen ++ [c]) ++ chunks)
      by now rewrite <- app_assoc.
    inversion Hpos as [|c' chunks' Hc Hrest]; subst.
    apply IH; [assumption|]. now apply words_inv_step.
Qed.

Lemma concat_wrap_lines (font : Font) (text : str) (max_width : Z) :
  concat (wrap_lines font text max_width)
  = concat (lines (wrap_loop font max_width (_split_chunks text)))
    ++ cur_line (wrap_loop font max_width (_split_chunks text)).
Proof.
  unfold wrap_lines.
  destruct (cur_line _) eqn:Hcur.
  - now rewrite app_nil_r.
  - rewrite concat_app. simpl. now rewrite app_nil_r.
Qed.

(** X3. When the font gives every chunk of the text a positive width,
    no word is lost and none is moved: the chunks of the emitted lines
    that are not whitespace are those of the text, in the same order. *)
Theorem no_word_is_lost (font : Font) (text : str) (max_width : Z) :
  Forall (fun c => 0 < fst (getsize font c)) (_split_chunks text) ->
  filter is_word (concat (wrap_lines font text max_width))
  = filter is_word (_split_chunks text).
Proof.
  intros Hpos. rewrite concat_wrap_lines.
  assert (words_inv [] wrap_init) as Hinit
    by (repeat split; simpl; auto; lia).
  now destruct (words_inv_loop font max_width (_split_chunks text) Hpos
                  [] wrap_init Hinit) as [Hwords _].
Qed.

Lemma no_word_is_lost_witness :
  filter is_word (concat (wrap_lines fixed_pitch text_sentence 60))
  = filter is_word (_split_chunks text_sentence).
Proof.
  apply (no_word_is_lost fixed_pitch text_sentence 60).
  vm_compute. repeat constructor.
Defined.

(** *** No chunk is moved or repeated *)

Lemma subsequence_refl {A : Type} (l : list A) : subsequence l l.
Proof. induction l; constructor; assumption. Qed.

Lemma subsequence_app {A : Type} (l1 m1 l2 m2 : list A) :
  subsequence l1 m1 -> subsequence l2 m2 ->
  subsequence (l1 ++ l2) (m1 ++ m2).
Proof.
  intros H1 H2. induction H1; simpl; [assumption | |];
    constructor; assumption.
Qed.

Lemma subsequence_nil_l {A : Type} (m : list A) : subsequence [] m.
Proof. induction m; constructor; assumption. Qed.

Lemma subsequence_app_l {A : Type} (l1 l2 m : list A) :
  subsequence (l1 ++ l2) m -> subsequence l1 m.
Proof.
  intros H. remember (l1 ++ l2) as l eqn:Hl. revert l1 l2 Hl.
  induction H as [|x l m H IH|x l m H IH]; intros l1 l2 Hl.
  - destruct l1; [constructor | discriminate].
  - constructor. now apply (IH l1 l2).
  - destruct l1 as [|y l1].
    + apply subsequence_nil_l.
    + injection Hl as -> ->. apply subsequence_keep. now apply (IH l1 l2).
Qed.

Lemma subsequence_step (font : Font) (max_width : Z) (seen : list str)
    (st : wrap_state) (chunk : str) :
  subsequence (concat (lines st) ++ cur_line st) seen ->
  subsequence
    (concat (lines (wrap_step font max_width st chunk))
     ++ cur_line (wrap_step font max_width st chunk))
    (seen ++ [chunk]).
Proof.
  intros H. unfold wrap_step.
  destruct (_ >? _).
  - destruct (_ =? _); cbn [lines cur_line].
    + rewrite concat_app, app_nil_r. cbn [concat]. rewrite app_nil_r.
      apply subsequence_app; [|apply subsequence_refl].
      now apply subsequence_app_l in H.
    + rewrite concat_app. cbn [concat]. rewrite app_nil_r.
      apply subsequence_app; [assumption|].
      destruct (isspace chunk); [apply subsequence_nil_l
                                | apply subsequence_refl].
  - cbn [lines cur_line]. rewrite app_assoc.
    apply subsequence_app; [assumption | apply subsequence_refl].
Qed.

(** X4. The chunks of the emitted lines, read line after line, are
    chunks of the text in the order of the text: none is repeated, moved
    or made up. *)
Theorem emitted_chunks_keep_their_order (font : Font) (text : str)
    (max_width : Z) :
  subsequence (concat (wrap_lines font text max_width)) (_split_chunks text).
Proof.
  rewrite concat_wrap_lines. unfold wrap_loop.
  assert (forall chunks seen st,
             subsequence (concat (lines st) ++ cur_line st) seen ->
             subsequence
               (concat (lines (fold_left (wrap_step font max_width) chunks st))
                ++ cur_line (fold_left (wrap_step font max_width) chunks st))
               (seen ++ chunks)) as Hloop.
  { induction chunks as [|c chunks IH]; intros seen st H.
    - now rewrite app_nil_r.
    - simpl. replace (seen ++ c :: chunks) with ((seen ++ [c]) ++ chunks)
        by now rewrite <- app_assoc.
      apply IH. now apply subsequence_step. }
  apply (Hloop (_split_chunks text) [] wrap_init). constructor.
Qed.

(** *** The rows of the output *)

Lemma ws_LF : ws LF = true.
Proof. reflexivity. Qed.

Lemma munged_no_LF (text : str) : no_LF (_munge_whitespace text).
Proof.
  unfold no_LF, _munge_whitespace, translate. intros Hin.
  apply in_map_iff in Hin. destruct Hin as (c & Hc & _).
  destruct (ws c) eqn:Hws.
  - discriminate.
  - subst c. rewrite ws_LF in Hws. discriminate.
Qed.

Lemma lstrip_incl (s : str) (c : ascii) : In c (lstrip s) -> In c s.
Proof.
  induction s as [|a s IH]; simpl; [auto|].
  destruct (isspace_char a); [auto|]. simpl. auto.
Qed.

Lemma strip_incl (s : str) (c : ascii) : In c (strip s) -> In c s.
Proof.
  unfold strip, rstrip. intros H.
  apply in_rev, lstrip_incl in H. apply in_rev in H.
  now apply lstrip_incl.
Qed.

Lemma rendered_line_no_LF (font : Font) (text : str) (max_width : Z)
    (line : list str) :
  In line (wrap_lines font text max_width) -> no_LF (render_line line).
Proof.
  intros Hin HLF. unfold render_line in HLF.
  apply strip_incl, in_concat in HLF. destruct HLF as (chunk & Hchunk & HLF).
  apply wrap_lines_runs in Hin. destruct Hin as (before & after & Hrun).
  apply (munged_no_LF text).
  rewrite <- (split_from_concat (length (_munge_whitespace text)) []
                (_munge_whitespace text)) by lia.
  apply in_concat. exists chunk. split; [|assumption].
  change (In chunk (_split_chunks text)). rewrite Hrun.
  apply in_or_app. right. apply in_or_app. now left.
Qed.

Lemma splitlines_aux_last (s : str) :
  forall cur, no_LF s -> splitlines_aux cur s = [rev cur ++ s].
Proof.
  induction s as [|c s IH]; intros cur Hs; simpl.
  - now rewrite app_nil_r.
  - destruct (is_char LF c) eqn:Hc.
    + apply is_char_eq in Hc. subst c. exfalso. apply Hs. now left.
    + rewrite IH by (intros H; apply Hs; now right).
      simpl. now rewrite <- app_assoc.
Qed.

Lemma splitlines_aux_row (s rest : str) :
  forall cur,
    no_LF s ->
    splitlines_aux cur (s ++ LF :: rest)
    = (rev cur ++ s) :: splitlines_aux [] rest.
Proof.
  induction s as [|c s IH]; intros cur Hs; simpl.
  - now rewrite app_nil_r.
  - destruct (is_char LF c) eqn:Hc.
    + apply is_char_eq in Hc. subst c. exfalso. apply Hs. now left.
    + rewrite IH by (intros H; apply Hs; now right).
      simpl. now rewrite <- app_assoc.
Qed.

(** Splitting at line feeds undoes the join of rows without line
    feeds. *)
Lemma splitlines_join (rows : list str) :
  rows <> [] -> Forall no_LF rows -> splitlines (join [LF] rows) = rows.
Proof.
  induction rows as [|r rows IH]; intros Hne Hrows; [contradiction|].
  inversion Hrows as [|r' rows' Hr Hrest]; subst.
  destruct rows as [|r2 rows].
  - simpl. unfold splitlines. now rewrite splitlines_aux_last.
  - change (join [LF] (r :: r2 :: rows))
      with (r ++ LF :: join [LF] (r2 :: rows)).
    unfold splitlines. rewrite splitlines_aux_row by assumption.
    simpl rev. simpl app at 1. f_equal.
    apply IH; [discriminate | assumption].
Qed.

Lemma wrap_step_nonempty (font : Font) (max_width : Z) (st : wrap_state)
    (chunk : str) :
  lines (wrap_step font max_width st chunk) <> []
  \/ cur_line (wrap_step font max_width st chunk) <> [].
Proof.
  unfold wrap_step. destruct (_ >? _); [destruct (_ =? _)|]; simpl.
  - left. intros H. now apply app_eq_nil in H.
  - left. intros H. now apply app_eq_nil in H.
  - right. intros H. now apply app_eq_nil in H.
Qed.

Lemma expandtabs_nonempty (s : str) (col : nat) :
  s <> [] -> expandtabs_aux 8 col s <> [].
Proof.
  destruct s as [|c s]; [contradiction|]. intros _.
  cbn [expandtabs_aux]. cbv zeta.
  destruct (is_char TAB c); [|discriminate].
  pose proof (Nat.mod_upper_bound col 8 ltac:(lia)) as Hmod.
  remember (8 - Nat.modulo col 8)%nat as incr eqn:Hincr.
  destruct incr as [|n]; [lia|]. cbn [repeat app]. discriminate.
Qed.

Lemma wrap_lines_nonempty (font : Font) (text : str) (max_width : Z) :
  text <> [] -> wrap_lines font text max_width <> [].
Proof.
  intros Htext.
  assert (_split_chunks text <> []) as Hchunks.
  { intros Hnil.
    assert (concat (_split_chunks text) = _munge_whitespace text) as Hcat
      by (apply split_from_concat; lia).
    rewrite Hnil in Hcat. simpl in Hcat.
    unfold _munge_whitespace, translate in Hcat.
    symmetry in Hcat. apply map_eq_nil in Hcat.
    now apply (expandtabs_nonempty text 0). }
  unfold wrap_lines, wrap_loop.
  destruct (exists_last Hchunks) as (chunks & c & ->).
  rewrite wrap_loop_app.
  destruct (wrap_step_nonempty font max_width
              (fold_left (wrap_step font max_width) chunks wrap_init) c)
    as [H | H];
    destruct (cur_line _); try assumption; try contradiction.
  - intros Hnil. now apply app_eq_nil in Hnil.
  - intros Hnil. apply app_eq_nil in Hnil. now destruct Hnil.
Qed.

(** *** [strip] leaves no whitespace at either end *)

Lemma lstrip_idempotent (s : str) : lstrip (lstrip s) = lstrip s.
Proof.
  induction s as [|c s IH]; [reflexivity|].
  simpl. destruct (isspace_char c) eqn:Hc; [assumption|].
  simpl. now rewrite Hc.
Qed.

Lemma lstrip_snoc (l : str) (c : ascii) :
  isspace_char c = false -> exists l', lstrip (l ++ [c]) = l' ++ [c].
Proof.
  intros Hc. induction l as [|a l IH]; simpl.
  - rewrite Hc. now exists [].
  - destruct (isspace_char a); [assumption|]. now exists (a :: l).
Qed.

Lemma lstrip_rstrip_lstrip (s : str) :
  lstrip (rstrip (lstrip s)) = rstrip (lstrip s).
Proof.
  assert (forall u,
             lstrip u = u -> lstrip (rstrip u) = rstrip u) as Hu.
  { intros u Hfix. destruct u as [|c t]; [reflexivity|].
    assert (isspace_char c = false) as Hc.
    { simpl in Hfix. destruct (isspace_char c) eqn:Hc; [|reflexivity].
      exfalso.
      assert (length (lstrip t) <= length t)%nat as Hlen.
      { clear. induction t as [|a t IH]; simpl; [lia|].
        destruct (isspace_char a); simpl; lia. }
      rewrite Hfix in Hlen. simpl in Hlen. lia. }
    unfold rstrip. simpl rev.
    destruct (lstrip_snoc (rev t) c Hc) as [l' ->].
    rewrite rev_app_distr. simpl. now rewrite Hc. }
  apply Hu, lstrip_idempotent.
Qed.

Lemma strip_ends (s : str) :
  lstrip (strip s) = strip s /\ rstrip (strip s) = strip s.
Proof.
  unfold strip. split.
  - apply lstrip_rstrip_lstrip.
  - unfold rstrip at 1 2. now rewrite rev_involutive, lstrip_idempotent.
Qed.

(** X5. For a text that is not empty, the output split at its line
    feeds gives back the emitted lines, each concatenated and stripped:
    there is one row for each emitted line, since no chunk holds a line
    feed, and no row starts or ends with whitespace. *)
Theorem output_rows_are_the_emitted_lines (font : Font) (text : str)
    (max_width : Z) :
  text <> [] ->
  splitlines (wrap_font_text font text max_width)
  = map render_line (wrap_lines font text max_width)
  /\ Forall (fun row => lstrip row = row /\ rstrip row = row)
       (splitlines (wrap_font_text font text max_width)).
Proof.
  intros Htext.
  assert (splitlines (wrap_font_text font text max_width)
          = map render_line (wrap_lines font text max_width)) as Hrows.
  { unfold wrap_font_text. apply splitlines_join.
    - intros Hnil. apply map_eq_nil in Hnil.
      now apply (wrap_lines_nonempty font text max_width).
    - apply Forall_forall. intros row Hin.
      apply in_map_iff in Hin. destruct Hin as (line & <- & Hin).
      now apply rendered_line_no_LF with (font := font) (text := text)
                                         (max_width := max_width). }
  split; [assumption|].
  rewrite Hrows. apply Forall_forall. intros row Hin.
  apply in_map_iff in Hin. destruct Hin as (line & <- & _).
  apply strip_ends.
Qed.

Lemma output_rows_are_the_emitted_lines_witness :
  splitlines (wrap_font_text fixed_pitch text_two_lines 5)
  = map render_line (wrap_lines fixed_pitch text_two_lines 5).
Proof.
  apply (output_rows_are_the_emitted_lines fixed_pitch text_two_lines 5).
  discriminate.
Defined.

(** *** Whitespace of the input *)

Lemma translate_no_tab (text : str) : ~ In TAB (translate text).
Proof.
  unfold translate. intros Hin. apply in_map_iff in Hin.
  destruct Hin as (c & Hc & _).
  destruct (ws c) eqn:Hws; [discriminate|].
  subst c. discriminate.
Qed.

Lemma expandtabs_without_tab (text : str) :
  ~ In TAB text -> expandtabs 8 text = text.
Proof.
  intros Hno. apply expandtabs_no_tab. intros ch Hin.
  destruct (is_char TAB ch) eqn:Hc; [|reflexivity].
  apply is_char_eq in Hc. subst ch. contradiction.
Qed.

Lemma translate_idempotent (text : str) :
  translate (translate text) = translate text.
Proof.
  unfold translate. rewrite map_map. apply map_ext. intros c.
  destruct (ws c) eqn:Hws; [reflexivity | now rewrite Hws].
Qed.

(** X6. The line feeds of the input are not kept: a text without tabs
    wraps as the text in which every line feed, carriage return, form
    feed and vertical tab is replaced by a space. *)
Theorem whitespace_of_the_input_is_normalised (font : Font) (text : str)
    (max_width : Z) :
  ~ In TAB text ->
  wrap_font_text font (translate text) max_width
  = wrap_font_text font text max_width.
Proof.
  intros Hno.
  assert (_split_chunks (translate text) = _split_chunks text) as Hchunks.
  { unfold _split_chunks, _munge_whitespace.
    rewrite (expandtabs_without_tab text Hno).
    rewrite (expandtabs_without_tab (translate text) (translate_no_tab text)).
    now rewrite translate_idempotent. }
  unfold wrap_font_text, wrap_lines. now rewrite Hchunks.
Qed.

Lemma whitespace_of_the_input_is_normalised_witness :
  wrap_font_text fixed_pitch (translate text_two_lines) 50
  = wrap_font_text fixed_pitch text_two_lines 50.
Proof.
  apply (whitespace_of_the_input_is_normalised fixed_pitch text_two_lines 50).
  vm_compute. intros [H | [H | [H | []]]]; discriminate.
Defined.

End WrapMore.

(** ** More on the tokenizer *)

Module TokenMore.

Import TextWrap TextWrapFacts Draw WrapFacts.

Lemma expandtabs_chars (s : str) :
  forall col c, In c (expandtabs_aux 8 col s) -> c = SPACE \/ In c s.
Proof.
  induction s as [|a s IH]; intros col c; [intros []|].
  cbn [expandtabs_aux]. cbv zeta.
  destruct (is_char TAB a).
  - intros Hin. apply in_app_or in Hin. destruct Hin as [Hin | Hin].
    + left. now apply repeat_spec in Hin.
    + destruct (IH _ _ Hin) as [H | H]; [now left | right; now right].
  - intros [<- | Hin]; [right; now left|].
    destruct (IH _ _ Hin) as [H | H]; [now left | right; now right].
Qed.

Lemma munged_chars (text : str) (c : ascii) :
  In c (_munge_whitespace text) -> c = SPACE \/ In c text.
Proof.
  unfold _munge_whitespace, translate. intros Hin.
  apply in_map_iff in Hin. destruct Hin as (a & Ha & Hin).
  destruct (ws a); [now left|]. subst a.
  now apply expandtabs_chars in Hin.
Qed.

Lemma emdash_ahead_needs_hyphen (c : ascii) (s : str) :
  c <> HYPHEN -> emdash_ahead (c :: s) = false.
Proof.
  intros Hc. unfold emdash_ahead. simpl dashes.
  destruct (is_char HYPHEN c) eqn:Hh; [|reflexivity].
  apply is_char_eq in Hh. contradiction.
Qed.

(** Without hyphens a word takes the whole run of non-whitespace. *)
Lemma word_len_whole_run (s : str) :
  forall back,
    ~ In HYPHEN s ->
    match skipn (word_len back s) s with
    | c :: _ => ws c = true
    | [] => True
    end.
Proof.
  induction s as [|c s IH]; intros back Hno; [exact I|].
  assert (c <> HYPHEN) as Hc by (intros ->; apply Hno; now left).
  cbn [word_len].
  destruct (hyphen_break back (c :: s)) eqn:Hh.
  - apply hyphen_break_head in Hh. contradiction.
  - destruct (ws c) eqn:Hws; [exact Hws|].
    rewrite (emdash_ahead_needs_hyphen c s Hc), andb_false_r.
    cbn [skipn]. apply IH. intros Hin. apply Hno. now right.
Qed.

Lemma word_chunk_head (c : ascii) (t : str) :
  word_chunk (c :: t) = true -> ws c = false.
Proof.
  simpl. intros H. apply andb_true_iff in H. destruct H as [H _].
  now apply negb_true_iff in H.
Qed.

Lemma starts_with_word_head (fuel : nat) (back s : str) :
  starts_with_word (split_from fuel back s) = true ->
  match s with
  | ch :: _ => ws ch = false
  | [] => False
  end.
Proof.
  destruct fuel as [|fuel]; destruct s as [|c s]; simpl; try discriminate.
  intros H.
  change (word_chunk (firstn (match_len back (c :: s)) (c :: s)) = true) in H.
  destruct (chunk_head back c s) as [t Ht]. rewrite Ht in H.
  now apply word_chunk_head in H.
Qed.

Lemma split_from_word_maximal (fuel : nat) :
  forall back s,
    ~ In HYPHEN s -> word_runs_maximal (split_from fuel back s) = true.
Proof.
  induction fuel as [|fuel IH]; intros back s Hno.
  - destruct s; reflexivity.
  - destruct s as [|c s]; [reflexivity|].
    rewrite split_from_cons. cbn [word_runs_maximal].
    rewrite IH, andb_true_r.
    2:{ intros Hin. apply Hno.
        rewrite <- (firstn_skipn (match_len back (c :: s)) (c :: s)).
        apply in_or_app. now right. }
    apply negb_true_iff, andb_false_iff.
    destruct (word_chunk (firstn (match_len back (c :: s)) (c :: s))) eqn:Hc;
      [right | now left].
    destruct (chunk_head back c s) as [t Ht].
    rewrite Ht in Hc. apply word_chunk_head in Hc.
    destruct (starts_with_word _) eqn:Hs; [exfalso | reflexivity].
    apply starts_with_word_head in Hs.
    assert (c <> HYPHEN) as Hch by (intros ->; apply Hno; now left).
    assert (match_len back (c :: s) = S (word_len (c :: back) s)) as Hm.
    { unfold match_len.
      now rewrite Hc, (emdash_ahead_needs_hyphen c s Hch), andb_false_r. }
    rewrite Hm in Hs. cbn [skipn] in Hs.
    pose proof (word_len_whole_run s (c :: back)
                  ltac:(intros Hin; apply Hno; now right)) as Hrun.
    destruct (skipn (word_len (c :: back) s) s); [assumption | congruence].
Qed.

(** X14. In a text without hyphens the chunks are the maximal runs,
    in turn, of spaces and of non-whitespace: no two neighbours are of
    the same kind. *)
Theorem chunks_alternate_without_hyphens (text : str) :
  ~ In HYPHEN text ->
  space_runs_maximal (_split_chunks text) = true
  /\ word_runs_maximal (_split_chunks text) = true.
Proof.
  intros Hno. split; [apply split_from_maximal|].
  apply split_from_word_maximal. intros Hin.
  apply munged_chars in Hin. destruct Hin as [Hin | Hin];
    [discriminate | contradiction].
Qed.

Lemma chunks_alternate_without_hyphens_witness :
  space_runs_maximal (_split_chunks text_aa_bb) = true
  /\ word_runs_maximal (_split_chunks text_aa_bb) = true.
Proof.
  apply (chunks_alternate_without_hyphens text_aa_bb).
  vm_compute. intros H.
  repeat (destruct H as [H | H]; [discriminate|]). destruct H.
Defined.

(** *** A text of whitespace only *)

Lemma ws_len_all (s : str) : forallb ws s = true -> ws_len s = length s.
Proof.
  induction s as [|c s IH]; [reflexivity|]. simpl.
  intros H. apply andb_true_iff in H. destruct H as [Hc Hs].
  now rewrite Hc, IH.
Qed.

Lemma lstrip_all_space (s : str) :
  forallb isspace_char s = true -> lstrip s = [].
Proof.
  induction s as [|c s IH]; [reflexivity|]. simpl.
  intros H. apply andb_true_iff in H. destruct H as [Hc Hs].
  now rewrite Hc, IH.
Qed.

Lemma ws_isspace (c : ascii) : ws c = true -> isspace_char c = true.
Proof.
  unfold ws, isspace_char, between. intros H.
  apply orb_true_iff in H. destruct H as [H | H].
  - now rewrite H.
  - apply andb_true_iff in H. destruct H as [H1 H2].
    apply N.leb_le in H1. apply N.leb_le in H2.
    assert ((28 <=? code c)%N && (code c <=? 32)%N = true) as ->
      by (apply andb_true_iff; split; apply N.leb_le; lia).
    now rewrite orb_true_r.
Qed.

Lemma munged_blank (text : str) :
  forallb ws text = true -> forallb ws (_munge_whitespace text) = true.
Proof.
  intros Hall. apply forallb_forall. intros c Hin.
  apply munged_chars in Hin. destruct Hin as [-> | Hin]; [reflexivity|].
  rewrite forallb_forall in Hall. now apply Hall.
Qed.

(** X15. A text of whitespace only, the empty text too, gives the
    empty string, whatever the font and the budget. *)
Theorem blank_text_gives_empty_output (font : Font) (text : str)
    (max_width : Z) :
  forallb ws text = true ->
  wrap_font_text font text max_width = [].
Proof.
  intros Hall. pose proof (munged_blank text Hall) as Hm.
  unfold wrap_font_text, wrap_lines, wrap_loop, _split_chunks, _split.
  destruct (_munge_whitespace text) as [|c s] eqn:Htext; [reflexivity|].
  assert (match_len [] (c :: s) = length (c :: s)) as Hlen.
  { unfold match_len. pose proof Hm as Hc. simpl in Hc.
    apply andb_true_iff in Hc. destruct Hc as [Hc _]. rewrite Hc.
    now apply ws_len_all. }
  cbn [length]. rewrite split_from_cons, Hlen, firstn_all, skipn_all.
  assert (forall fuel back, split_from fuel back [] = []) as ->
    by (intros [|fuel] back; reflexivity).
  assert (strip (c :: s) = []) as Hstrip.
  { unfold strip. rewrite lstrip_all_space; [reflexivity|].
    apply forallb_forall. intros ch Hin. apply ws_isspace.
    rewrite forallb_forall in Hm. now apply Hm. }
  simpl fold_left. unfold wrap_step. simpl.
  destruct (_ >? _); simpl; unfold render_line; simpl;
    now rewrite app_nil_r, Hstrip.
Qed.

Lemma blank_text_gives_empty_output_witness :
  wrap_font_text fixed_pitch text_blank 15 = [].
Proof.
  apply (blank_text_gives_empty_output fixed_pitch text_blank 15).
  reflexivity.
Defined.

End TokenMore.

(** ** More on [draw_text_field] and [draw] *)

Section DrawMore.

Context {env : Env}.

Import Draw.

Lemma same_shape_refl (im : Image) : same_shape im im.
Proof. split; reflexivity. Qed.

Lemma same_shape_trans (im1 im2 im3 : Image) :
  same_shape im1 im2 -> same_shape im2 im3 -> same_shape im1 im3.
Proof. intros [H1 H2] [H3 H4]. split; congruence. Qed.

Lemma alpha_composite_shape (dst src im' : Image) :
  alpha_composite over dst src = Ok im' -> same_shape dst im'.
Proof.
  unfold alpha_composite.
  destruct (negb _); [discriminate|]. destruct (negb _); [discriminate|].
  intros [= <-]. split; reflexivity.
Qed.

Lemma draw_background_shape (font : Font) (text : str)
    (field : TextFieldConfig) (c : Color) (im : Image) :
  same_shape im (snd (draw_background font text field c im)).
Proof.
  unfold draw_background, bind, lift, get_image, put_image.
  destruct (textbbox font _ text) as [b|e]; simpl;
    [|apply same_shape_refl].
  destruct (to_pil_color c) as [fill|e]; simpl; [|apply same_shape_refl].
  destruct (alpha_composite over im _) as [im'|e] eqn:Hcomp; simpl;
    [|apply same_shape_refl].
  now apply alpha_composite_shape in Hcomp.
Qed.

Lemma draw_text_field_shape (text : str) (field : TextFieldConfig)
    (im : Image) :
  same_shape im (snd (draw_text_field text field im)).
Proof.
  unfold draw_text_field, bind at 1, lift at 1.
  destruct (load_font field) as [font|e]; [|apply same_shape_refl].
  unfold bind at 1, get_image at 1.
  unfold bind at 1, lift at 1.
  destruct (ImageDraw_Draw im (Some mode_RGBA)) as [d|e];
    [|apply same_shape_refl].
  unfold bind at 1.
  destruct (bg field) as [c|].
  - pose proof (draw_background_shape font
                  (wrapped_text font text field im) field c im) as Hbg.
    destruct (draw_background font (wrapped_text font text field im)
                field c im) as [[[]|e] im1]; simpl in Hbg; [|assumption].
    unfold bind, lift, draw_text, get_image, put_image.
    destruct Hbg as [Hm Hs].
    destruct (to_pil_color (fg field)) as [fill|e]; simpl;
      split; assumption.
  - unfold ret, bind, lift, draw_text, get_image, put_image.
    destruct (to_pil_color (fg field)) as [fill|e]; simpl;
      split; reflexivity.
Qed.

(** X7. Whatever its outcome, [draw_text_field] leaves the surface its
    mode and its size: a field is never drawn on a resized or converted
    image. *)
Theorem draw_text_field_keeps_mode_and_size (text : str)
    (field : TextFieldConfig) (im im' : Image) (o : outcome unit) :
  draw_text_field text field im = (o, im') ->
  mode im' = mode im /\ size im' = size im.
Proof.
  intros Hrun. pose proof (draw_text_field_shape text field im) as H.
  now rewrite Hrun in H.
Qed.

(** X8. When [draw_text_field] raises and the foreground colour is one
    that converts, the surface is exactly as it was: nothing of the field
    has been drawn. *)
Theorem failed_field_leaves_surface (text : str) (field : TextFieldConfig)
    (im im' : Image) (e : exception) (fill : PILColorTuple) :
  to_pil_color (fg field) = Ok fill ->
  draw_text_field text field im = (Raise e, im') ->
  im' = im.
Proof.
  intros Hfg. unfold draw_text_field, bind at 1, lift at 1.
  destruct (load_font field) as [font|e1]; [|now intros [= _ <-]].
  unfold bind at 1, get_image at 1.
  unfold bind at 1, lift at 1.
  destruct (ImageDraw_Draw im (Some mode_RGBA)) as [d|e1];
    [|now intros [= _ <-]].
  unfold bind at 1.
  destruct (bg field) as [c|].
  - unfold draw_background, bind, lift, get_image, put_image, draw_text.
    destruct (textbbox font _ _) as [b|e1]; simpl; [|now intros [= _ <-]].
    destruct (to_pil_color c) as [fillbg|e1]; simpl; [|now intros [= _ <-]].
    destruct (alpha_composite over im _) as [im1|e1]; simpl;
      [|now intros [= _ <-]].
    rewrite Hfg. discriminate.
  - unfold ret, bind, lift, draw_text, get_image, put_image.
    rewrite Hfg. discriminate.
Qed.

(** X9. On a surface that is neither RGB nor RGBA no field can be
    drawn, with or without a background: once the font is loaded the
    RGBA drawing context is refused, and the surface is left as it
    was. *)
Theorem other_modes_are_refused (text : str) (field : TextFieldConfig)
    (im : Image) (font : Font) :
  load_font field = Ok font ->
  mode im <> mode_RGB ->
  mode im <> mode_RGBA ->
  draw_text_field text field im = (Raise (ValueError "mode mismatch"), im).
Proof.
  intros Hfont Hrgb Hrgba.
  unfold draw_text_field, bind, lift, get_image. rewrite Hfont.
  unfold ImageDraw_Draw. destruct (mode im); simpl; congruence.
Qed.

(** The run of a field with a background on which every step
    succeeds. *)
Lemma draw_text_field_run (text : str) (field : TextFieldConfig)
    (im : Image) (c : Color) (font : Font) (b : Box)
    (fill_bg fill_fg : PILColorTuple) :
  bg field = Some c ->
  mode im = mode_RGBA ->
  load_font field = Ok font ->
  textbbox font (x field, y field) (wrapped_text font text field im) = Ok b ->
  to_pil_color c = Ok fill_bg ->
  to_pil_color (fg field) = Ok fill_fg ->
  draw_text_field text field im
  = (Ok tt,
     mkImage (mode im) (size im)
       (fun i j =>
          text_ink font false (x field, y field)
            (wrapped_text font text field im) fill_fg i j
            (over (if in_box (expand b (padding field)) i j
                   then ink fill_bg else (0, 0, 0, 0))
               (px im i j)))).
Proof.
  intros Hbg Hmode Hfont Hbox Hcbg Hcfg.
  unfold draw_text_field, draw_background, bind, lift, get_image,
    put_image, ret, draw_text.
  rewrite Hfont, Hbg. unfold ImageDraw_Draw at 1. rewrite Hmode. simpl.
  rewrite Hbox, Hcbg. unfold alpha_composite. rewrite Hmode. simpl.
  rewrite size_eqb_refl. simpl. rewrite Hcfg. reflexivity.
Qed.

Lemma expand_covers (b : Box) (p : PaddingConfig) (i j : Z) :
  nonneg_padding p -> in_box b i j = true -> in_box (expand b p) i j = true.
Proof.
  intros (Ht & Hr & Hb & Hl). destruct b as [[[x0 y0] x1] y1].
  unfold expand, in_box. rewrite !andb_true_iff, !Z.leb_le. lia.
Qed.

(** X10. With paddings that are not negative the background covers the
    bounding box of the text: once the field is drawn, every pixel of
    that box is the text inked on the background colour composited over
    the pixel of the surface. *)
Theorem background_covers_the_text_box (text : str)
    (field : TextFieldConfig) (im : Image) (c : Color) (font : Font)
    (b : Box) (fill_bg fill_fg : PILColorTuple) :
  bg field = Some c ->
  mode im = mode_RGBA ->
  load_font field = Ok font ->
  textbbox font (x field, y field) (wrapped_text font text field im) = Ok b ->
  to_pil_color c = Ok fill_bg ->
  to_pil_color (fg field) = Ok fill_fg ->
  nonneg_padding (padding field) ->
  exists im2,
    draw_text_field text field im = (Ok tt, im2)
    /\ forall i j,
         in_box b i j = true ->
         px im2 i j
         = text_ink font false (x field, y field)
             (wrapped_text font text field im) fill_fg i j
             (over (ink fill_bg) (px im i j)).
Proof.
  intros Hbg Hmode Hfont Hbox Hcbg Hcfg Hpad.
  eexists. split.
  - exact (draw_text_field_run text field im c font b fill_bg fill_fg
             Hbg Hmode Hfont Hbox Hcbg Hcfg).
  - intros i j Hin. simpl.
    now rewrite (expand_covers b (padding field) i j Hpad Hin).
Qed.

(** *** The loop over the fields *)

(** X11. Rendering a list of fields followed by another is rendering
    the first list and then, when it did not raise, the second on the
    surface the first has left: the later fields are drawn over the
    earlier ones. *)
Theorem draw_fields_app (fm : Frontmatter)
    (first second : list TextFieldConfig) (im : Image) :
  draw_fields fm (first ++ second) im
  = match draw_fields fm first im with
    | (Ok _, im1) => draw_fields fm second im1
    | (Raise e, im1) => (Raise e, im1)
    end.
Proof.
  revert im. induction first as [|f first IH]; intros im; [reflexivity|].
  simpl. unfold bind.
  destruct (draw_field fm f im) as [[[]|e] im1]; [apply IH | reflexivity].
Qed.

Lemma draw_field_shape (fm : Frontmatter) (field : TextFieldConfig)
    (im : Image) :
  same_shape im (snd (draw_field fm field im)).
Proof.
  unfold draw_field, bind, lift.
  destruct (field_value fm field) as [v|e]; [|apply same_shape_refl].
  apply draw_text_field_shape.
Qed.

Lemma draw_fields_shape (fm : Frontmatter) (fields : list TextFieldConfig) :
  forall im, same_shape im (snd (draw_fields fm fields im)).
Proof.
  induction fields as [|f fields IH]; intros im; [apply same_shape_refl|].
  simpl. unfold bind.
  pose proof (draw_field_shape fm f im) as Hf.
  destruct (draw_field fm f im) as [[[]|e] im1]; simpl in Hf; [|assumption].
  eapply same_shape_trans; [exact Hf | apply IH].
Qed.

(** X12. The image [draw] returns has the mode and the size of the
    template it opened. *)
Theorem card_has_the_shape_of_the_template (fm : Frontmatter)
    (cnf : CardGenConfig) (card : Image) :
  draw fm cnf = Ok card ->
  exists im0,
    Image_open (template cnf) = Ok im0
    /\ mode card = mode im0
    /\ size card = size im0.
Proof.
  unfold draw. destruct (Image_open (template cnf)) as [im0|e];
    [|discriminate].
  pose proof (draw_fields_shape fm (text_fields cnf) im0) as Hshape.
  destruct (draw_fields fm (text_fields cnf) im0) as [[[]|e] im1];
    [|discriminate].
  intros [= <-]. exists im0. split; [reflexivity | exact Hshape].
Qed.

Lemma lookup_same_default (keys : list str) (s k : str) :
  In k keys -> sample_lookup (map (fun key => (key, s)) keys) k = Some s.
Proof.
  unfold sample_lookup.
  induction keys as [|k' keys IH]; intros Hin; [contradiction|].
  cbn [map find fst]. unfold str_eqb at 1.
  destruct (list_eq_dec ascii_dec k' k) as [Heq | Hne]; [reflexivity|].
  destruct Hin as [Heq | Hin]; [contradiction|]. now apply IH.
Qed.

(** X13. For a field read from several keys whose default is one
    string, the value is the one [get_frontmatter_formatted] gives for
    defaults in which every key of the field has that string. *)
Theorem multi_source_defaults (fm : Frontmatter) (field : TextFieldConfig)
    (keys : list str) (s : str) :
  source field = MultiSource keys ->
  default field = StrDefault s ->
  exists defaults,
    field_value fm field
    = get_frontmatter_formatted fm (str_of_format (format field)) keys
        defaults (optional field)
    /\ forall k, In k keys -> sample_lookup defaults k = Some s.
Proof.
  intros Hsrc Hdef. unfold field_value. rewrite Hsrc, Hdef.
  eexists. split; [reflexivity|].
  intros k Hin. now apply lookup_same_default.
Qed.

End DrawMore.


Lemma draw_text_field_keeps_mode_and_size_witness :
  mode (snd (draw_text_field (env := sample_env) text_aa_bb
               (sample_field (Some translucent_red) None) sample_image))
  = mode sample_image
  /\ size (snd (draw_text_field (env := sample_env) text_aa_bb
                  (sample_field (Some translucent_red) None) sample_image))
     = size sample_image.
Proof.
  apply (draw_text_field_keeps_mode_and_size (env := sample_env) text_aa_bb
           (sample_field (Some translucent_red) None) sample_image _
           (fst (draw_text_field (env := sample_env) text_aa_bb
                   (sample_field (Some translucent_red) None)
                   sample_image))).
  reflexivity.
Defined.

Lemma failed_field_leaves_surface_witness :
  snd (draw_text_field (env := sample_env) text_aa_bb
         (sample_field (Some translucent_red) None) sample_rgb_image)
  = sample_rgb_image.
Proof.
  apply (failed_field_leaves_surface (env := sample_env) text_aa_bb
           (sample_field (Some translucent_red) None) sample_rgb_image _
           (ValueError "image has wrong mode") (Tuple3 0 0 0)).
  - reflexivity.
  - reflexivity.
Defined.

Lemma other_modes_are_refused_witness :
  draw_text_field (env := sample_env) text_aa_bb (sample_field None None)
    sample_grey_image
  = (Raise (ValueError "mode mismatch"), sample_grey_image).
Proof.
  apply (other_modes_are_refused (env := sample_env) text_aa_bb
           (sample_field None None) sample_grey_image fixed_pitch).
  - reflexivity.
  - discriminate.
  - discriminate.
Defined.

Lemma background_covers_the_text_box_witness :
  exists im2,
    draw_text_field (env := sample_env) text_aa_bb
      (sample_field (Some translucent_red) None) sample_image
    = (Ok tt, im2)
    /\ px im2 40 31 = (255, 0, 0, 102).
Proof.
  destruct (background_covers_the_text_box (env := sample_env) text_aa_bb
              (sample_field (Some translucent_red) None) sample_image
              translucent_red fixed_pitch (10, 20, 40, 31)
              (Tuple4 255 0 0 102) (Tuple3 0 0 0))
    as (im2 & Hrun & Hpx); try reflexivity.
  - unfold nonneg_padding. simpl. lia.
  - exists im2. split; [exact Hrun|].
    rewrite (Hpx 40 31 eq_refl). reflexivity.
Defined.

Lemma card_has_the_shape_of_the_template_witness :
  exists im0,
    Image_open (Env := sample_env) (template good_cnf) = Ok im0
    /\ mode (card_of (draw (env := sample_env) sample_fm good_cnf)
               sample_grey_image) = mode im0
    /\ size (card_of (draw (env := sample_env) sample_fm good_cnf)
               sample_grey_image) = size im0.
Proof.
  apply (card_has_the_shape_of_the_template (env := sample_env) sample_fm
           good_cnf).
  reflexivity.
Defined.

Lemma multi_source_defaults_witness :
  exists defaults,
    field_value (env := sample_env) sample_fm two_key_field
    = get_frontmatter_formatted (Env := sample_env) sample_fm
        (str_of_format (format two_key_field))
        [lit "title"; lit "author"] defaults (optional two_key_field)
    /\ forall k,
         In k [lit "title"; lit "author"] ->
         sample_lookup defaults k = Some (lit "n/a").
Proof.
  apply (multi_source_defaults (env := sample_env) sample_fm two_key_field
           [lit "title"; lit "author"] (lit "n/a")); reflexivity.
Defined.
